(** * Dental-practice chat assistant: chat client and turn controller

    The chat page (React component [Home] with its [handleSend] handler) is
    embedded from the TypeScript source.  React state is passed explicitly:
    one record holds the three [useState] cells the handler touches, and the
    asynchronous handler is split at its single [await] into the part that
    runs when the user sends and the part that runs when the HTTP call
    settles.  The conversation-turn controller lives in the Python back end;
    its model follows the design document. *)

From Stdlib Require Import ZArith DecimalString.
From Stdlib Require DecimalPos DecimalZ.
From stdpp Require Import base list strings.

(** ** JavaScript strings *)

Module Js.

(** A string is its sequence of UTF-16 code units. *)
Definition str := list N.

(** String literal of the source (all literals of the page are ASCII). *)
Definition lit (s : string) : str :=
  map Ascii.N_of_ascii (String.list_ascii_of_string s).

(** [WhiteSpace] and [LineTerminator] of ECMAScript, the code units removed
    by [String.prototype.trim]. *)
Definition is_white_space (c : N) : bool :=
  ((9 <=? c) && (c <=? 13) || (c =? 32) || (c =? 160) || (c =? 5760)
   || (8192 <=? c) && (c <=? 8202) || (c =? 8232) || (c =? 8233)
   || (c =? 8239) || (c =? 8287) || (c =? 12288) || (c =? 65279))%N.

Fixpoint trim_start (s : str) : str :=
  match s with
  | c :: s' => if is_white_space c then trim_start s' else s
  | [] => []
  end.

Definition trim_end (s : str) : str := rev (trim_start (rev s)).

(** [s.trim()] *)
Definition trim (s : str) : str := trim_end (trim_start s).

(** Truthiness of a string: every string but the empty one. *)
Definition truthy (s : str) : bool :=
  match s with [] => false | _ :: _ => true end.

(** [a || b] where [a] is a string or [undefined] and [b] a string. *)
Definition or_else (a : option str) (b : str) : str :=
  match a with
  | Some s => if truthy s then s else b
  | None => b
  end.

Fixpoint eqb (a b : str) : bool :=
  match a, b with
  | [], [] => true
  | x :: a', y :: b' => (x =? y)%N && eqb a' b'
  | _, _ => false
  end.

Fixpoint starts_with (p s : str) : bool :=
  match p, s with
  | [], _ => true
  | x :: p', y :: s' => (x =? y)%N && starts_with p' s'
  | _ :: _, [] => false
  end.

(** [s.includes(sub)] *)
Fixpoint includes (sub s : str) : bool :=
  starts_with sub s
  || match s with [] => false | _ :: s' => includes sub s' end.

(** Decimal rendering of an integer inside a template literal. *)
Definition of_int (n : Z) : str := lit (NilZero.string_of_int (Z.to_int n)).

End Js.

(** ** The chat page *)

Module Client.

Import Js.
Local Open Scope Z_scope.

Inductive Role := user | assistant.

(** [interface Message]; the [Date] is its epoch time in milliseconds. *)
Record Message := {
  role : Role;
  content : str;
  timestamp : Z
}.

(** One element of [conversation_history]: the keys [role] and [content]. *)
Record HistoryEntry := {
  entry_role : Role;
  entry_content : str
}.

(** Body of the POST to [/api/chat]: the keys [message] and
    [conversation_history]. *)
Record ChatRequest := {
  message : str;
  conversation_history : list HistoryEntry
}.

(** [response.data] of a fulfilled call; [response] may be missing. *)
Record ResponseData := {
  response : option str
}.

(** [error.response.data], with the two keys the handler reads. *)
Record ErrorData := {
  detail : option str;
  data_message : option str
}.

(** [error.response] *)
Record ErrorResponse := {
  status : Z;
  data : option ErrorData
}.

(** The value caught by [catch (error: any)], with the fields the handler
    reads: [error.response], [error.request] (its truthiness),
    [error.code] and [error.message]. *)
Record RequestError := {
  error_response : option ErrorResponse;
  error_request : bool;
  error_code : option str;
  error_message : option str
}.

(** How the awaited [axiosInstance.post] settles: fulfilled with
    [response.data] (possibly absent), or rejected. *)
Inductive PostOutcome :=
| Fulfilled (d : option ResponseData)
| Rejected (error : RequestError).

(** The three [useState] cells read and written by [handleSend]. *)
Record State := {
  messages : list Message;
  input : str;
  isLoading : bool
}.

Definition GREETING : str :=
  lit "Hello! I'm your dental practice assistant. How can I help you today?".

(** Timeout given to [axios.create], in milliseconds. *)
Definition REQUEST_TIMEOUT : Z := 60000.

(** Initial state of [Home], rendered at time [now]. *)
Definition initial (now : Z) : State :=
  {| messages := [ {| role := assistant; content := GREETING; timestamp := now |} ];
     input := [];
     isLoading := false |}.

Definition MSG_DEFAULT : str :=
  lit "I'm sorry, I'm having trouble processing your request right now.".
Definition MSG_402 : str :=
  lit "I'm temporarily unavailable due to API service issues. Please try again in a few moments, or contact us directly at +1-555-0123.".
Definition MSG_401 : str :=
  lit "There's an authentication issue. Please refresh the page and try again.".
Definition MSG_500 : str :=
  lit "The server encountered an error. Please try again in a moment.".
Definition MSG_400 : str :=
  lit "There was an issue with your request. Please try rephrasing your message.".
Definition MSG_STATUS (status : Z) : str :=
  lit "Server error (" ++ of_int status ++ lit "). Please try again.".
Definition MSG_TIMEOUT : str :=
  lit "The request took too long. This might be due to high demand. Please try again with a shorter message.".
Definition MSG_NETWORK : str :=
  lit "Unable to connect to the server. Please check your internet connection and try again.".
Definition MSG_UNEXPECTED : str :=
  lit "An unexpected error occurred. Please try again.".
Definition MSG_INVALID : str := lit "Invalid response from server".

(** [error.response.data?.detail || error.response.data?.message || ''] *)
Definition detail_of (r : ErrorResponse) : str :=
  or_else (data r ≫= detail) (or_else (data r ≫= data_message) []).

(** [error.code === 'ECONNABORTED' || error.message?.includes('timeout')] *)
Definition is_timeout (error : RequestError) : bool :=
  match error_code error with
  | Some c => eqb c (lit "ECONNABORTED")
  | None => false
  end
  || match error_message error with
     | Some m => includes (lit "timeout") m
     | None => false
     end.

(** The [catch] block: the text of the assistant message shown for a
    failed call.  [errorContent] starts as [MSG_DEFAULT] and every branch
    assigns it again. *)
Definition errorContent (error : RequestError) : str :=
  match error_response error with
  | Some r =>
      let detail := detail_of r in
      if status r =? 402 then MSG_402
      else if status r =? 401 then MSG_401
      else if status r =? 500 then or_else (Some detail) MSG_500
      else if status r =? 400 then or_else (Some detail) MSG_400
      else or_else (Some detail) (MSG_STATUS (status r))
  | None =>
      if error_request error then
        if is_timeout error then MSG_TIMEOUT else MSG_NETWORK
      else or_else (error_message error) MSG_UNEXPECTED
  end.

(** The branch of the [catch] block an error takes: a response with a
    status code, no response in time, no response at all, or an error
    raised before any request left. *)
Inductive Category :=
| Status (code : Z)
| TimedOut
| Unreachable
| Internal.

Definition category (error : RequestError) : Category :=
  match error_response error with
  | Some r => Status (status r)
  | None =>
      if error_request error then
        if is_timeout error then TimedOut else Unreachable
      else Internal
  end.

(** The literal of each branch. *)
Definition fixed_message (c : Category) : str :=
  match c with
  | Status code =>
      if code =? 402 then MSG_402
      else if code =? 401 then MSG_401
      else if code =? 500 then MSG_500
      else if code =? 400 then MSG_400
      else MSG_STATUS code
  | TimedOut => MSG_TIMEOUT
  | Unreachable => MSG_NETWORK
  | Internal => MSG_UNEXPECTED
  end.

(** Whether an optional [detail] is a non-empty string. *)
Definition truthy_detail (d : option str) : bool :=
  match d with Some s => truthy s | None => false end.

(** An apology of the page: one of the literals the catch block words
    itself. *)
Definition apology (s : str) : Prop := exists c, s = fixed_message c.

(** The branches whose text ignores what the error carries. *)
Definition ignores_detail (c : Category) : bool :=
  match c with
  | Status code => (code =? 402) || (code =? 401)
  | TimedOut | Unreachable => true
  | Internal => false
  end.

(** The error axios raises for an answer outside 2xx whose body carries
    [detail]. *)
Definition http_error (code : Z) (d : option str) : RequestError :=
  {| error_response :=
       Some {| status := code;
               data := Some {| detail := d; data_message := None |} |};
     error_request := true;
     error_code := None;
     error_message := Some (lit "Request failed with status code " ++ of_int code) |}.

(** A detail string as a failing back end may send it. *)
Definition sample_detail : str :=
  lit "Traceback (most recent call last): KeyError: 'OPENAI_API_KEY'".

(** [new Error('Invalid response from server')], thrown inside [try]. *)
Definition invalid_response : RequestError :=
  {| error_response := None; error_request := false;
     error_code := None; error_message := Some MSG_INVALID |}.

(** Content of the assistant message appended once the call settles:
    [response.data.response] when [response.data && response.data.response]
    is truthy, the [catch] block's text otherwise. *)
Definition reply (outcome : PostOutcome) : str :=
  match outcome with
  | Fulfilled d =>
      match d ≫= response with
      | Some text => if truthy text then text else errorContent invalid_response
      | None => errorContent invalid_response
      end
  | Rejected error => errorContent error
  end.

(** [messages.map((msg) => ({ role: msg.role, content: msg.content }))] *)
Definition conversationHistory (ms : list Message) : list HistoryEntry :=
  map (fun msg => {| entry_role := role msg; entry_content := content msg |}) ms.

(** [handleSend] up to its [await], called at time [now]: the new state
    and the request posted, if any. *)
Definition handleSend (now : Z) (st : State) : State * option ChatRequest :=
  if negb (truthy (trim (input st))) || isLoading st then (st, None)
  else
    let userMessage :=
      {| role := user; content := trim (input st); timestamp := now |} in
    let messageToSend := trim (input st) in
    ({| messages := messages st ++ [userMessage];
        input := [];
        isLoading := true |},
     Some {| message := messageToSend;
             conversation_history := conversationHistory (messages st) |}).

(** [handleSend] after its [await], resumed at time [now] with the settled
    call: one assistant message is appended, then [finally] clears the
    loading flag. *)
Definition handleSend_settled (now : Z) (outcome : PostOutcome) (st : State) : State :=
  {| messages := messages st ++
       [ {| role := assistant; content := reply outcome; timestamp := now |} ];
     input := input st;
     isLoading := false |}.

(** *** The page as a transition system

    Besides the React state the world holds the calls that were posted and
    have not settled yet.  The state updates of a handler are committed
    before the next event is handled, so each event reads the state the
    previous one left; [Typed] and [Send] may occur at any time, also
    while the input is disabled. *)
Record World := {
  ui : State;
  in_flight : list ChatRequest
}.

Inductive Event :=
| Typed (text : str)                       (* onChange: setInput *)
| Send (now : Z)                           (* button click or Enter *)
| Settle (i : nat) (now : Z) (outcome : PostOutcome).
                                           (* the i-th pending call settles *)

Definition step (w : World) (e : Event) : World :=
  match e with
  | Typed text =>
      {| ui := {| messages := messages (ui w); input := text;
                  isLoading := isLoading (ui w) |};
         in_flight := in_flight w |}
  | Send now =>
      match handleSend now (ui w) with
      | (st, Some req) => {| ui := st; in_flight := in_flight w ++ [req] |}
      | (st, None) => {| ui := st; in_flight := in_flight w |}
      end
  | Settle i now outcome =>
      match in_flight w !! i with
      | Some _ =>
          {| ui := handleSend_settled now outcome (ui w);
             in_flight := delete i (in_flight w) |}
      | None => w
      end
  end.

Definition start (now : Z) : World :=
  {| ui := initial now; in_flight := [] |}.

Definition run (w : World) (events : list Event) : World :=
  fold_left step events w.

(** The user has typed a question into a fresh page. *)
Definition sample_past : list Event :=
  [ Typed (lit "  Do you take walk-ins? ") ].

(** While the call is pending the user types and presses Enter again. *)
Definition sample_between : list Event :=
  [ Typed (lit "Hello?"); Send 7 ].

Definition is_settle (e : Event) : bool :=
  match e with Settle _ _ _ => true | _ => false end.

(** At most one call is pending, and exactly when the loading flag is set. *)
Definition consistent (w : World) : Prop :=
  length (in_flight w) = if isLoading (ui w) then 1%nat else 0%nat.

(** The error axios raises for a call that got no answer within
    [timeout] milliseconds. *)
Definition timeout_error (timeout : Z) : RequestError :=
  {| error_response := None; error_request := true;
     error_code := Some (lit "ECONNABORTED");
     error_message :=
       Some (lit "timeout of " ++ of_int timeout ++ lit "ms exceeded") |}.

End Client.

(** ** The conversation-turn controller *)

Module Controller.

(** Modelled from the spec: the roles of a Message (the controller source
    is missing). *)
Inductive Role := user | assistant | tool.

(** Modelled from the spec: the ToolCallRequest of the data model (the
    controller source is missing), a tool name with its arguments. *)
Record ToolCallRequest := {
  tool_name : string;
  arguments : list (string * string)
}.

(** Modelled from the spec: the ToolResult of the data model (the
    controller source is missing). *)
Record ToolResult := {
  result_tool : string;
  success : bool;
  payload : string
}.

(** Modelled from the spec: the optional structured part of a Message, a
    tool-call request folded into an assistant message or a tool result. *)
Inductive Structured :=
| Plain
| Requests (calls : list ToolCallRequest)
| Result (r : ToolResult).

(** Modelled from the spec: the Message of the data model. *)
Record Message := {
  role : Role;
  content : string;
  structured : Structured
}.

(** Modelled from the spec: the transcript, the ordered sequence of the
    Messages of a conversation. *)
Definition Transcript := list Message.

(** Modelled from the spec: the typed conditions of a failed gateway call. *)
Inductive ProviderCondition :=
| ProviderUnavailable
| ProviderAuthError
| ProviderTimeout
| ProviderBadResponse.

(** Modelled from the spec: the conditions that reach the Transport
    Boundary (a ToolValidationError is folded into the transcript). *)
Inductive Condition :=
| Provider (p : ProviderCondition)
| ConversationStalled.

(** Modelled from the spec: what one LLM Gateway call returns, a text, one
    or more tool-call requests in order, or a provider failure. *)
Inductive GatewayResponse :=
| Text (reply : string)
| ToolCalls (first : ToolCallRequest) (rest : list ToolCallRequest)
| Failure (p : ProviderCondition).

(** Modelled from the spec: the collaborators of the controller (their
    sources are missing): the iteration cap, the LLM Gateway called with
    the full transcript (the schema list is fixed), the Tool Registry's
    [invoke], and the time at which the execution of the call at a given
    position of a request completes. *)
Record Collaborators := {
  cap : nat;
  gateway : Transcript -> GatewayResponse;
  invoke : ToolCallRequest -> ToolResult;
  latency : nat -> ToolCallRequest -> nat
}.

(** Modelled from the spec: the Message appended for the user's text. *)
Definition user_message (text : string) : Message :=
  {| role := user; content := text; structured := Plain |}.

(** Modelled from the spec: the Message appended for a plain-text
    response. *)
Definition assistant_message (text : string) : Message :=
  {| role := assistant; content := text; structured := Plain |}.

(** Modelled from the spec: the assistant Message into which the
    tool-call requests of one response are folded. *)
Definition request_message (calls : list ToolCallRequest) : Message :=
  {| role := assistant; content := ""; structured := Requests calls |}.

(** Modelled from the spec: the ToolResult Message appended for one
    call. *)
Definition tool_message (r : ToolResult) : Message :=
  {| role := tool; content := payload r; structured := Result r |}.

(** Modelled from the spec: one tool execution that has finished, with
    the position of its request. *)
Record Completion := {
  position : nat;
  finished_at : nat;
  result : ToolResult
}.

(** Modelled from the spec: the executions of one iteration, started
    together. *)
Definition launch (env : Collaborators) (calls : list ToolCallRequest) : list Completion :=
  imap (fun i call =>
          {| position := i; finished_at := latency env i call;
             result := invoke env call |}) calls.

(** Modelled from the spec: a completion takes its place among those that
    finished before it. *)
Fixpoint insert_completion (c : Completion) (done : list Completion) : list Completion :=
  match done with
  | [] => [c]
  | d :: done' =>
      if finished_at c <? finished_at d then c :: done
      else d :: insert_completion c done'
  end.

(** Modelled from the spec: the completions in the order in which the
    executions finish. *)
Definition arrivals (env : Collaborators) (calls : list ToolCallRequest) : list Completion :=
  foldr insert_completion [] (launch env calls).

(** Modelled from the spec: the result of the request at position [i]
    among the completions that arrived. *)
Definition result_at (arrived : list Completion) (i : nat) : option ToolResult :=
  result <$> find (fun c => position c =? i) arrived.

(** Modelled from the spec: the results put back in request order. *)
Definition collect (n : nat) (arrived : list Completion) : list ToolResult :=
  omap (result_at arrived) (seq 0 n).

(** Modelled from the spec: the tool calls of one pass are executed
    together and their results taken in request order. *)
Definition execute_tools (env : Collaborators) (calls : list ToolCallRequest) : list ToolResult :=
  collect (length calls) (arrivals env calls).

Global Arguments execute_tools : simpl never.

(** Modelled from the spec: how [handleTurn] ends, with the reply text or
    with a condition. *)
Inductive Outcome :=
| Reply (text : string)
| Failed (c : Condition).

(** One pass of the loop: the transcript sent to the gateway, its
    response, and the messages appended during the pass. *)
Record Iteration := {
  sent : Transcript;
  received : GatewayResponse;
  produced : list Message
}.

Record Turn := {
  outcome : Outcome;
  transcript : Transcript;
  iterations : list Iteration
}.

(** Modelled from the spec: the bounded loop of [handleTurn] (the
    controller source is missing), with [fuel] passes left. *)
Fixpoint loop (env : Collaborators) (fuel : nat) (t : Transcript) : Turn :=
  match fuel with
  | 0 =>
      {| outcome := Failed ConversationStalled; transcript := t; iterations := [] |}
  | S fuel' =>
      match gateway env t with
      | Text reply =>
          let new := [assistant_message reply] in
          {| outcome := Reply reply;
             transcript := t ++ new;
             iterations := [ {| sent := t; received := Text reply; produced := new |} ] |}
      | ToolCalls first rest =>
          let calls := first :: rest in
          let new := request_message calls
                     :: map tool_message (execute_tools env calls) in
          let r := loop env fuel' (t ++ new) in
          {| outcome := outcome r;
             transcript := transcript r;
             iterations :=
               {| sent := t; received := ToolCalls first rest; produced := new |}
               :: iterations r |}
      | Failure p =>
          {| outcome := Failed (Provider p);
             transcript := t;
             iterations := [ {| sent := t; received := Failure p; produced := [] |} ] |}
      end
  end.

(** Modelled from the spec: [handleTurn(session, userText)]. *)
Definition handleTurn (env : Collaborators) (session : Transcript) (userText : string) : Turn :=
  loop env (cap env) (session ++ [user_message userText]).

Definition is_tool_calls (r : GatewayResponse) : bool :=
  match r with ToolCalls _ _ => true | _ => false end.

Definition calls_of (r : GatewayResponse) : list ToolCallRequest :=
  match r with ToolCalls first rest => first :: rest | _ => [] end.

(** The passes of a turn in which the gateway requested tool calls. *)
Definition tool_iterations (r : Turn) : list Iteration :=
  List.filter (fun it => is_tool_calls (received it)) (iterations r).

(** Messages a pass appends for the response it received, the tool results
    in the order of their requests. *)
Definition messages_for (env : Collaborators) (r : GatewayResponse) : list Message :=
  match r with
  | Text reply => [assistant_message reply]
  | ToolCalls first rest =>
      request_message (first :: rest)
      :: map (fun call => tool_message (invoke env call)) (first :: rest)
  | Failure _ => []
  end.

(** Number of messages of a tool-call pass: the request and one result
    for each call. *)
Definition weight (it : Iteration) : nat :=
  S (length (calls_of (received it))).

(** The passes [its] start from transcript [t]: each sends the transcript
    the one before it left, and records what the gateway answered. *)
Fixpoint follows (env : Collaborators) (t : Transcript) (its : list Iteration) : Prop :=
  match its with
  | [] => True
  | it :: its' =>
      sent it = t /\ received it = gateway env t
      /\ follows env (t ++ produced it) its'
  end.

(** The [n]-th pass of a turn. *)
Definition pass (r : Turn) (n : nat) : Iteration :=
  default {| sent := []; received := Failure ProviderBadResponse; produced := [] |}
          (iterations r !! n).

(** A registry whose tools all succeed. *)
Definition echo (call : ToolCallRequest) : ToolResult :=
  {| result_tool := tool_name call; success := true; payload := "ok" |}.

Definition lookup_patient : ToolCallRequest :=
  {| tool_name := "lookup_patient"; arguments := [("phone", "555-0100")] |}.

Definition reschedule_appointment : ToolCallRequest :=
  {| tool_name := "reschedule_appointment";
     arguments := [("appointment_id", "17"); ("date", "2025-03-04")] |}.

(** A gateway that asks for two tools at once on the first pass and
    answers in text afterwards; the second execution finishes first. *)
Definition two_calls_then_text : Collaborators :=
  {| cap := 5;
     gateway := fun t =>
       if (length t =? 1)%nat
       then ToolCalls lookup_patient [reschedule_appointment]
       else Text "Your appointment is moved.";
     invoke := echo;
     latency := fun i _ => (10 - i)%nat |}.

(** A gateway that asks for one tool on the first pass and answers in text
    afterwards. *)
Definition one_call_then_text : Collaborators :=
  {| cap := 5;
     gateway := fun t =>
       if (length t =? 1)%nat
       then ToolCalls reschedule_appointment []
       else Text "Your appointment is moved.";
     invoke := echo;
     latency := fun _ _ => 0%nat |}.

(** A gateway that asks for a tool on every pass. *)
Definition always_tools (n : nat) : Collaborators :=
  {| cap := n;
     gateway := fun _ => ToolCalls lookup_patient [];
     invoke := echo;
     latency := fun _ _ => 0%nat |}.

End Controller.

(** ** Rendering of the chat page *)

Module Page.

Import Js Client.

(** [disabled={isLoading}] of the text input. *)
Definition input_disabled (st : State) : bool := isLoading st.

(** [disabled={!input.trim() || isLoading}] of the send button. *)
Definition button_disabled (st : State) : bool :=
  negb (truthy (trim (input st))) || isLoading st.

(** A string of white space only. *)
Definition blank (s : str) : bool := forallb is_white_space s.

(** The role a message at position [i] of the list has when turns
    alternate after the greeting. *)
Definition expected_role (i : nat) : Role :=
  if Nat.even i then assistant else user.

Definition is_typed (e : Event) : bool :=
  match e with Typed _ => true | _ => false end.

(** A page on which only white space was typed: a space, a tab and a
    no-break space. *)
Definition blank_page : State :=
  {| messages := messages (initial 0); input := [32; 9; 160]%N; isLoading := false |}.

(** After the first answer the user types a second question. *)
Definition sample_typed : list Event := [ Typed (lit "And on Sundays?") ].

(** Assistant and user messages alternate after the greeting, and the list
    ends in a user message exactly while a call is pending. *)
Definition alternating (st : State) : Prop :=
  (forall i m, messages st !! i = Some m -> role m = expected_role i)
  /\ Nat.even (length (messages st)) = isLoading st.

(** No message has an empty text. *)
Definition filled (st : State) : Prop :=
  Forall (fun m => truthy (content m) = true) (messages st).

End Page.

(** ** The Docker initialisation script *)

Module DockerInit.

(** What the script finds on the host: whether [docker info] succeeds,
    whether [.env] and [.env.template] exist, and whether [curl] on the
    health endpoint succeeds when the counter has a given value.  Every
    command is taken to return; a command that blocks is outside this
    description, which covers the runs that finish. *)
Record Host := {
  docker_running : bool;
  env_exists : bool;
  template_exists : bool;
  healthy : nat -> bool
}.

(** The commands the script runs; the lines it prints are left out. *)
Inductive Command :=
| DockerInfo
| CopyTemplate                 (* cp .env.template .env *)
| MkdirData                    (* mkdir -p data *)
| ComposeBuild                 (* docker-compose build *)
| ComposeUp                    (* docker-compose up -d *)
| Curl (counter : nat)         (* curl -s http://localhost:8000/api/health *)
| Sleep (seconds : nat)
| InitDatabase.                (* docker-compose exec -T backend python ... *)

(** [timeout=60] *)
Definition TIMEOUT : nat := 60.

(** The [while [ $counter -lt $timeout ]] loop from a given counter, with
    [fuel] passes allowed: the final counter and the commands run. *)
Fixpoint wait_loop (fuel : nat) (host : Host) (timeout counter : nat)
  : option (nat * list Command) :=
  match fuel with
  | 0 => None
  | S fuel' =>
      if counter <? timeout then
        if healthy host counter then Some (counter, [Curl counter])
        else
          match wait_loop fuel' host timeout (counter + 2) with
          | Some (final, cmds) => Some (final, Curl counter :: Sleep 2 :: cmds)
          | None => None
          end
      else Some (counter, [])
  end.

(** A finished run: the commands in order, and the status of an explicit
    [exit] ([None] when the script runs to its end). *)
Record Run := {
  commands : list Command;
  exit_status : option nat
}.

(** The script, with [fuel] passes allowed to its loop. *)
Definition script (fuel : nat) (host : Host) : option Run :=
  if negb (docker_running host) then
    Some {| commands := [DockerInfo]; exit_status := Some 1 |}
  else if negb (env_exists host) && negb (template_exists host) then
    Some {| commands := [DockerInfo]; exit_status := Some 1 |}
  else
    let copy := if negb (env_exists host) then [CopyTemplate] else [] in
    match wait_loop fuel host TIMEOUT 0 with
    | Some (counter, probes) =>
        Some {| commands :=
                  [DockerInfo] ++ copy ++ [MkdirData; ComposeBuild; ComposeUp]
                  ++ probes
                  ++ (if TIMEOUT <=? counter then [] else [InitDatabase]);
                exit_status := None |}
    | None => None
    end.

(** The loop needs no more passes than the timeout has seconds. *)
Definition docker_init (host : Host) : option Run := script (S TIMEOUT) host.

(** The commands of the waiting loop. *)
Definition probe_or_sleep (c : Command) : Prop :=
  match c with Curl _ | Sleep _ => True | _ => False end.

Definition is_curl (c : Command) : bool :=
  match c with Curl _ => true | _ => false end.

Definition sleep_seconds (c : Command) : nat :=
  match c with Sleep n => n | _ => 0 end.

(** A host whose back end answers from the third probe on. *)
Definition slow_start : Host :=
  {| docker_running := true; env_exists := false; template_exists := true;
     healthy := fun counter => 4 <=? counter |}.

(** The run of the script on a host (the default stands for a loop that
    is out of passes, which [docker_init] never is). *)
Definition run_on (host : Host) : Run :=
  default {| commands := []; exit_status := Some 2 |} (docker_init host).

(** A host whose back end never answers. *)
Definition never_healthy : Host :=
  {| docker_running := true; env_exists := true; template_exists := false;
     healthy := fun _ => false |}.

End DockerInit.

(** * Properties of the chat page *)

Section ChatPage.

Import Js Client.
Local Open Scope Z_scope.

Implicit Types (st : State) (w : World) (e : Event) (now : Z).

(** ** The handler *)

Lemma handleSend_dispatch st now :
  truthy (trim (input st)) = true ->
  isLoading st = false ->
  handleSend now st =
    ({| messages := messages st ++
          [ {| role := user; content := trim (input st); timestamp := now |} ];
        input := [];
        isLoading := true |},
     Some {| message := trim (input st);
             conversation_history := conversationHistory (messages st) |}).
Proof.
  intros Hin Hload. unfold handleSend. now rewrite Hin, Hload.
Qed.

Lemma handleSend_busy st now :
  isLoading st = true -> handleSend now st = (st, None).
Proof.
  intros Hload. unfold handleSend. rewrite Hload.
  now rewrite orb_true_r.
Qed.

Lemma handleSend_request st now st' req :
  handleSend now st = (st', Some req) ->
  truthy (trim (input st)) = true /\ isLoading st = false.
Proof.
  unfold handleSend.
  destruct (truthy (trim (input st))), (isLoading st); simpl; intros H;
    try discriminate; auto.
Qed.

(** ** Pending calls and the loading flag *)

Lemma step_consistent w e : consistent w -> consistent (step w e).
Proof.
  unfold consistent. intros Hw.
  destruct e as [text | now | i now outcome]; cbn [step].
  - exact Hw.
  - destruct (isLoading (ui w)) eqn:Hload.
    + rewrite handleSend_busy by assumption. cbn. now rewrite Hload.
    + destruct (truthy (trim (input (ui w)))) eqn:Hin.
      * rewrite handleSend_dispatch by assumption. cbn.
        rewrite length_app, Hw. reflexivity.
      * unfold handleSend. rewrite Hin. cbn. now rewrite Hload.
  - destruct (in_flight w !! i) eqn:Hi; [ | exact Hw ].
    cbn. apply lookup_lt_Some in Hi.
    destruct (isLoading (ui w)); [ | lia ].
    destruct (in_flight w) as [ | r [ | r' l ] ]; simpl in *; try lia.
    destruct i; simpl in *; [ reflexivity | lia ].
Qed.

Lemma run_consistent w events : consistent w -> consistent (run w events).
Proof.
  revert w. induction events as [ | e events IH ]; intros w Hw; simpl.
  - exact Hw.
  - apply IH, step_consistent, Hw.
Qed.

Lemma start_consistent now : consistent (start now).
Proof. reflexivity. Qed.

(** ** The message list only grows *)

Lemma step_messages w e : messages (ui w) `prefix_of` messages (ui (step w e)).
Proof.
  destruct e as [text | now | i now outcome]; simpl.
  - reflexivity.
  - unfold handleSend.
    destruct (negb (truthy (trim (input (ui w)))) || isLoading (ui w)); simpl.
    + reflexivity.
    + now apply prefix_app_r.
  - destruct (in_flight w !! i); simpl; [ now apply prefix_app_r | reflexivity ].
Qed.

Lemma run_messages w events : messages (ui w) `prefix_of` messages (ui (run w events)).
Proof.
  revert w. induction events as [ | e events IH ]; intros w; simpl.
  - reflexivity.
  - etransitivity; [ apply step_messages | apply IH ].
Qed.

Lemma run_app w events events' :
  run w (events ++ events') = run (run w events) events'.
Proof. apply fold_left_app. Qed.

(** While a call is pending, typing and further sends leave the message
    list, the flag and the pending call as they are. *)
Lemma run_while_loading w events :
  isLoading (ui w) = true ->
  forallb (fun e => negb (is_settle e)) events = true ->
  messages (ui (run w events)) = messages (ui w)
  /\ isLoading (ui (run w events)) = true
  /\ in_flight (run w events) = in_flight w.
Proof.
  revert w. induction events as [ | e events IH ]; intros w Hload Hev; simpl.
  - auto.
  - simpl in Hev. apply andb_true_iff in Hev as [He Hev].
    destruct e as [text | now | i now outcome]; try discriminate.
    + destruct (IH (step w (Typed text)) Hload Hev) as (Hm & Hl & Hf). auto.
    + assert (Hs : step w (Send now) = w).
      { simpl. rewrite handleSend_busy by assumption. now destruct w. }
      rewrite Hs. now apply IH.
Qed.

(** C7: turns of the page's session are never interleaved.  In every
    reachable state at most one call is pending, and while one is pending a
    further send is rejected: it changes nothing and posts nothing. *)
Theorem turns_never_interleave (t0 : Z) (events : list Event) :
  let w := run (start t0) events in
  (length (in_flight w) <= 1)%nat
  /\ (in_flight w <> [] -> forall now, step w (Send now) = w).
Proof.
  intros w.
  assert (Hc : consistent w) by apply run_consistent, start_consistent.
  unfold consistent in Hc. split.
  - destruct (isLoading (ui w)); lia.
  - intros Hp now. destruct (isLoading (ui w)) eqn:Hload.
    + cbn [step]. rewrite handleSend_busy by assumption. now destruct w.
    + destruct (in_flight w); [ congruence | discriminate ].
Qed.

(** The greeting stays first in the list. *)
Lemma greeting_first (t0 : Z) (events : list Event) :
  exists rest,
    messages (ui (run (start t0) events)) =
      {| role := assistant; content := GREETING; timestamp := t0 |} :: rest.
Proof.
  destruct (run_messages (start t0) events) as [rest Hrest].
  exists rest. exact Hrest.
Qed.

(** C10: the history posted with a turn is the message list as it was
    before the user message was appended, reduced to role and content; it
    starts with the greeting, and the text being sent travels trimmed in
    [message]. *)
Theorem history_is_snapshot_before_send
    (t0 : Z) (events : list Event) now st' (req : ChatRequest) :
  let st := ui (run (start t0) events) in
  handleSend now st = (st', Some req) ->
  message req = trim (input st)
  /\ conversation_history req = conversationHistory (messages st)
  /\ messages st' =
       messages st ++ [ {| role := user; content := trim (input st); timestamp := now |} ]
  /\ length (conversation_history req) = length (messages st)
  /\ head (conversation_history req) =
       Some {| entry_role := assistant; entry_content := GREETING |}
  /\ (forall i msg, messages st !! i = Some msg ->
        conversation_history req !! i =
          Some {| entry_role := role msg; entry_content := content msg |}).
Proof.
  intros st Hsend.
  destruct (handleSend_request _ _ _ _ Hsend) as [Hin Hload].
  rewrite handleSend_dispatch in Hsend by assumption.
  injection Hsend as <- <-. cbn.
  repeat split.
  - unfold conversationHistory. now rewrite length_map.
  - subst st. destruct (greeting_first t0 events) as [rest ->]. reflexivity.
  - intros i msg Hi. unfold conversationHistory.
    rewrite list_lookup_fmap, Hi. reflexivity.
Qed.

Lemma reply_fulfilled (text : str) :
  truthy text = true ->
  reply (Fulfilled (Some {| response := Some text |})) = text.
Proof. intros H. cbn. now rewrite H. Qed.

(** A dispatched turn, with any typing and rejected sends while its call
    is pending. *)
Lemma dispatched_turn
    (t0 : Z) (past between : list Event) now now' (outcome : PostOutcome) :
  let w := run (start t0) past in
  truthy (trim (input (ui w))) = true ->
  isLoading (ui w) = false ->
  forallb (fun e => negb (is_settle e)) between = true ->
  let w1 := run (step w (Send now)) between in
  let w2 := step w1 (Settle 0 now' outcome) in
  messages (ui w2) =
    messages (ui w) ++
      [ {| role := user; content := trim (input (ui w)); timestamp := now |};
        {| role := assistant; content := reply outcome; timestamp := now' |} ]
  /\ isLoading (ui w1) = true
  /\ isLoading (ui w2) = false
  /\ in_flight w2 = [].
Proof.
  intros w Hin Hload Hbetween w1 w2.
  assert (Hc : consistent w) by apply run_consistent, start_consistent.
  unfold consistent in Hc. rewrite Hload in Hc.
  destruct (in_flight w) as [ | ? ? ] eqn:Hfl; [ clear Hc | discriminate ].
  set (userMessage :=
         {| role := user; content := trim (input (ui w)); timestamp := now |}).
  assert (Hsent : exists req,
             step w (Send now) =
               {| ui := {| messages := messages (ui w) ++ [userMessage];
                           input := []; isLoading := true |};
                  in_flight := [req] |}).
  { cbn [step]. rewrite handleSend_dispatch by assumption.
    rewrite Hfl. eauto. }
  destruct Hsent as [req Hsent].
  destruct (run_while_loading (step w (Send now)) between) as (Hm & Hl & Hf);
    [ now rewrite Hsent | assumption | ].
  fold w1 in Hm, Hl, Hf. rewrite Hsent in Hm, Hf. cbn in Hm, Hf.
  assert (Hw2 : w2 = {| ui := handleSend_settled now' outcome (ui w1);
                        in_flight := [] |}).
  { subst w2. cbn [step]. rewrite Hf. reflexivity. }
  rewrite Hw2. cbn. rewrite Hm, <- app_assoc. auto.
Qed.

(** The text of the catch block, branch by branch. *)
Lemma errorContent_by_category (error : RequestError) :
  (ignores_detail (category error) = true ->
     errorContent error = fixed_message (category error))
  /\ (forall r, error_response error = Some r ->
       ignores_detail (category error) = false ->
       errorContent error =
         if truthy (detail_of r) then detail_of r
         else fixed_message (category error))
  /\ (category error = Internal ->
       errorContent error = or_else (error_message error) MSG_UNEXPECTED).
Proof.
  unfold errorContent, category.
  destruct (error_response error) as [ r | ] eqn:Hr.
  - split; [ | split ].
    + cbn [ignores_detail fixed_message].
      destruct (status r =? 402); [ reflexivity | ].
      destruct (status r =? 401); [ reflexivity | discriminate ].
    + intros r' [= <-]. cbn [ignores_detail fixed_message or_else].
      destruct (status r =? 402); [ discriminate | ].
      destruct (status r =? 401); [ discriminate | ].
      destruct (status r =? 500); [ reflexivity | ].
      destruct (status r =? 400); reflexivity.
    + discriminate.
  - split; [ | split ].
    + destruct (error_request error); [ | discriminate ].
      destruct (is_timeout error); reflexivity.
    + discriminate.
    + destruct (error_request error); [ | reflexivity ].
      destruct (is_timeout error); discriminate.
Qed.

Lemma sample_detail_is_no_apology : ~ apology sample_detail.
Proof.
  intros [c H]. apply (f_equal (take 2)) in H.
  destruct c as [ code | | | ]; cbn [fixed_message] in H;
    [ destruct (code =? 402), (code =? 401), (code =? 500), (code =? 400) | | | ];
    vm_compute in H; discriminate H.
Qed.

(** C9, as the page behaves: a dispatched turn appends the trimmed user
    message and then one assistant message.  Its text is the server's
    response on success.  On failure it is the text of the catch block: the
    fixed literal of the branch for status 402 and 401, for a time-out and
    for an unreachable server; for any other status the detail (or message)
    of the answer when that is not empty and the literal of the status
    otherwise; for an error raised before a request left, such as a 2xx
    answer without a response text, the error's own message.  The flag is set
    while the call is pending and cleared once it settled, and every later
    turn posts the assistant message in its history. *)
Theorem turn_appends_user_then_assistant
    (t0 : Z) (past between : list Event) now now' (outcome : PostOutcome) :
  let w := run (start t0) past in
  truthy (trim (input (ui w))) = true ->
  isLoading (ui w) = false ->
  forallb (fun e => negb (is_settle e)) between = true ->
  let w1 := run (step w (Send now)) between in
  let w2 := step w1 (Settle 0 now' outcome) in
  messages (ui w2) =
    messages (ui w) ++
      [ {| role := user; content := trim (input (ui w)); timestamp := now |};
        {| role := assistant; content := reply outcome; timestamp := now' |} ]
  /\ isLoading (ui w1) = true
  /\ isLoading (ui w2) = false
  /\ in_flight w2 = []
  /\ match outcome with
     | Fulfilled (Some {| response := Some text |}) =>
         reply outcome = if truthy text then text else MSG_INVALID
     | Fulfilled _ => reply outcome = MSG_INVALID
     | Rejected error =>
         (ignores_detail (category error) = true ->
            reply outcome = fixed_message (category error))
         /\ (forall r, error_response error = Some r ->
              ignores_detail (category error) = false ->
              reply outcome =
                if truthy (detail_of r) then detail_of r
                else fixed_message (category error))
         /\ (category error = Internal ->
              reply outcome = or_else (error_message error) MSG_UNEXPECTED)
     end
  /\ (forall later now'' st' req,
        handleSend now'' (ui (run w2 later)) = (st', Some req) ->
        {| entry_role := assistant; entry_content := reply outcome |}
          ∈ conversation_history req).
Proof.
  intros w Hin Hload Hbetween w1 w2.
  destruct (dispatched_turn t0 past between now now' outcome Hin Hload Hbetween)
    as (Hmsgs & Hl1 & Hl2 & Hfl).
  fold w in Hmsgs. fold w1 in Hmsgs, Hl1, Hl2, Hfl. fold w2 in Hmsgs, Hl2, Hfl.
  repeat (split; [ assumption | ]).
  split.
  - destruct outcome as [ [ [ [ text | ] ] | ] | error ]; try reflexivity.
    apply errorContent_by_category.
  - intros later now'' st' req' Hsend.
    destruct (handleSend_request _ _ _ _ Hsend) as [Hin' Hload'].
    rewrite handleSend_dispatch in Hsend by assumption.
    injection Hsend as _ <-.
    cbn [conversation_history].
    destruct (run_messages w2 later) as [more Hmore].
    rewrite Hmore, Hmsgs. unfold conversationHistory.
    rewrite !map_app. cbn.
    rewrite !elem_of_app. left. right.
    rewrite !elem_of_cons. right. now left.
Qed.

(** ** The text shown for a failed call *)

(** C1, as the page behaves: the text is the fixed literal of the branch
    when the server answers 402 or 401, when the call times out and when
    the server cannot be reached; for every other status it is the
    [detail] (or [message]) of the answer when that is not empty and the
    literal of the status otherwise; for an error raised before a request
    left it is the error's own message when that is not empty. *)
Theorem failed_turn_reply (error : RequestError) :
  (ignores_detail (category error) = true ->
     errorContent error = fixed_message (category error))
  /\ (forall r, error_response error = Some r ->
       ignores_detail (category error) = false ->
       errorContent error =
         or_else (Some (detail_of r)) (fixed_message (category error)))
  /\ (category error = Internal ->
       errorContent error = or_else (error_message error) MSG_UNEXPECTED).
Proof.
  unfold errorContent, category.
  destruct (error_response error) as [ r | ] eqn:Hr.
  - split; [ | split ].
    + cbn. destruct (status r =? 402); [ reflexivity | ].
      destruct (status r =? 401); [ reflexivity | discriminate ].
    + intros r' [= <-]. cbn.
      destruct (status r =? 402); [ discriminate | ].
      destruct (status r =? 401); [ discriminate | ].
      destruct (status r =? 500); [ reflexivity | ].
      destruct (status r =? 400); reflexivity.
    + discriminate.
  - split; [ | split ].
    + destruct (error_request error); [ | discriminate ].
      destruct (is_timeout error); reflexivity.
    + discriminate.
    + destruct (error_request error); [ | reflexivity ].
      destruct (is_timeout error); discriminate.
Qed.

End ChatPage.

(** * Properties of the turn controller *)

Section TurnController.

Import Controller.

Implicit Types (env : Collaborators) (t : Transcript) (r : Turn)
  (calls : list ToolCallRequest) (arrived : list Completion).

(** ** Tool results come back in request order *)

Lemma insert_completion_perm (c : Completion) (done : list Completion) :
  insert_completion c done ≡ₚ c :: done.
Proof.
  induction done as [ | d done IH ]; cbn [insert_completion].
  - reflexivity.
  - destruct (finished_at c <? finished_at d); [ reflexivity | ].
    rewrite IH. apply Permutation_swap.
Qed.

Lemma arrivals_perm env calls : arrivals env calls ≡ₚ launch env calls.
Proof.
  unfold arrivals. induction (launch env calls) as [ | c l IH ]; cbn.
  - reflexivity.
  - now rewrite insert_completion_perm, IH.
Qed.

Lemma launch_lookup env calls (i : nat) (c : Completion) :
  launch env calls !! i = Some c <->
  exists call, calls !! i = Some call
               /\ c = {| position := i; finished_at := latency env i call;
                         result := invoke env call |}.
Proof.
  unfold launch. rewrite list_lookup_imap.
  destruct (calls !! i) as [ call | ]; cbn; split.
  - intros [= <-]. eauto.
  - intros (call' & [= <-] & ->). reflexivity.
  - discriminate.
  - intros (? & ? & _). discriminate.
Qed.

(** Whatever the order of arrival, the completion found for position [i]
    carries the result of the [i]-th request. *)
Lemma result_at_perm env calls arrived (i : nat) (call : ToolCallRequest) :
  arrived ≡ₚ launch env calls ->
  calls !! i = Some call ->
  result_at arrived i = Some (invoke env call).
Proof.
  intros Hperm Hcall. unfold result_at.
  destruct (find (fun c => position c =? i) arrived) as [ c | ] eqn:Hfind.
  - apply find_some in Hfind as [Hin Hpos].
    apply Nat.eqb_eq in Hpos.
    apply list_elem_of_In in Hin. rewrite Hperm in Hin.
    apply list_elem_of_lookup in Hin as [j Hj].
    apply launch_lookup in Hj as (call' & Hcall' & ->).
    cbn in Hpos. subst j. cbn. congruence.
  - exfalso.
    pose (c := {| position := i; finished_at := latency env i call;
                  result := invoke env call |}).
    assert (Hin : c ∈ arrived).
    { rewrite Hperm. apply list_elem_of_lookup. exists i.
      apply launch_lookup. eauto. }
    apply list_elem_of_In in Hin.
    apply (find_none _ _ Hfind) in Hin. cbn in Hin.
    now rewrite Nat.eqb_refl in Hin.
Qed.

Lemma omap_seq {A B} (f : nat -> option B) (g : A -> B) (l : list A) (k : nat) :
  (forall i x, l !! i = Some x -> f (k + i) = Some (g x)) ->
  omap f (seq k (length l)) = map g l.
Proof.
  revert k. induction l as [ | x l IH ]; intros k Hf; cbn.
  - reflexivity.
  - rewrite <- (Nat.add_0_r k) at 1. rewrite (Hf 0 x eq_refl).
    f_equal. apply IH. intros i y Hi.
    replace (S k + i) with (k + S i) by lia. now apply Hf.
Qed.

Lemma collect_perm env calls arrived :
  arrived ≡ₚ launch env calls ->
  collect (length calls) arrived = map (invoke env) calls.
Proof.
  intros Hperm. unfold collect. apply omap_seq.
  intros i call Hcall. cbn. now apply (result_at_perm env calls).
Qed.

Lemma execute_tools_in_order env calls :
  execute_tools env calls = map (invoke env) calls.
Proof. apply collect_perm, arrivals_perm. Qed.

(** ** The loop *)

Lemma loop_produced env (fuel : nat) t :
  Forall (fun it => produced it = messages_for env (received it))
         (iterations (loop env fuel t)).
Proof.
  revert t. induction fuel as [ | fuel IH ]; intros t; cbn.
  - constructor.
  - destruct (gateway env t) as [ reply | first rest | p ]; cbn.
    + repeat constructor.
    + constructor; [ | apply IH ].
      cbn. now rewrite execute_tools_in_order, map_map.
    + repeat constructor.
Qed.

Lemma loop_follows env (fuel : nat) t :
  follows env t (iterations (loop env fuel t)).
Proof.
  revert t. induction fuel as [ | fuel IH ]; intros t; cbn.
  - exact I.
  - destruct (gateway env t) as [ reply | first rest | p ] eqn:Hg; cbn;
      repeat split; auto.
Qed.

Lemma loop_transcript env (fuel : nat) t :
  transcript (loop env fuel t) =
    t ++ concat (map produced (iterations (loop env fuel t))).
Proof.
  revert t. induction fuel as [ | fuel IH ]; intros t; cbn.
  - now rewrite app_nil_r.
  - destruct (gateway env t) as [ reply | first rest | p ]; cbn.
    + reflexivity.
    + rewrite IH. now rewrite <- app_assoc.
    + now rewrite app_nil_r.
Qed.

Lemma loop_bounded env (fuel : nat) t :
  length (iterations (loop env fuel t)) <= fuel.
Proof.
  revert t. induction fuel as [ | fuel IH ]; intros t; cbn.
  - lia.
  - destruct (gateway env t); cbn; [ lia | | lia ].
    specialize (IH (t ++ request_message (first :: rest)
                        :: map tool_message (execute_tools env (first :: rest)))).
    lia.
Qed.

(** How a turn ends is read off its last pass. *)
Lemma loop_outcome env (fuel : nat) t :
  match outcome (loop env fuel t) with
  | Reply text =>
      exists it, last (iterations (loop env fuel t)) = Some it
                 /\ received it = Text text
  | Failed (Provider p) =>
      exists it, last (iterations (loop env fuel t)) = Some it
                 /\ received it = Failure p
  | Failed ConversationStalled =>
      length (iterations (loop env fuel t)) = fuel
      /\ Forall (fun it => is_tool_calls (received it) = true)
                (iterations (loop env fuel t))
  end.
Proof.
  revert t. induction fuel as [ | fuel IH ]; intros t; cbn.
  - split; [ reflexivity | constructor ].
  - destruct (gateway env t) as [ reply | first rest | p ]; cbn.
    + eexists. split; reflexivity.
    + set (t' := t ++ _). specialize (IH t').
      destruct (outcome (loop env fuel t')) as [ text | [ p | ] ].
      * destruct IH as (it & Hlast & Hrec). exists it. split; [ | exact Hrec ].
        rewrite last_cons, Hlast. reflexivity.
      * destruct IH as (it & Hlast & Hrec). exists it. split; [ | exact Hrec ].
        rewrite last_cons, Hlast. reflexivity.
      * destruct IH as [Hlen Hall]. split; [ now rewrite Hlen | ].
        constructor; [ reflexivity | exact Hall ].
    + eexists. split; reflexivity.
Qed.

(** A turn whose passes all received tool calls has used up the cap. *)
Lemma loop_all_tools env (fuel : nat) t :
  Forall (fun it => is_tool_calls (received it) = true)
         (iterations (loop env fuel t)) ->
  outcome (loop env fuel t) = Failed ConversationStalled
  /\ length (iterations (loop env fuel t)) = fuel.
Proof.
  intros Hall. pose proof (loop_outcome env fuel t) as Hout.
  destruct (outcome (loop env fuel t)) as [ text | [ p | ] ].
  - destruct Hout as (it & Hlast & Hrec).
    apply last_Some_elem_of in Hlast.
    rewrite Forall_forall in Hall. specialize (Hall it Hlast).
    rewrite Hrec in Hall. discriminate.
  - destruct Hout as (it & Hlast & Hrec).
    apply last_Some_elem_of in Hlast.
    rewrite Forall_forall in Hall. specialize (Hall it Hlast).
    rewrite Hrec in Hall. discriminate.
  - destruct Hout. auto.
Qed.

Lemma loop_received env (fuel : nat) t :
  Forall (fun it => received it = gateway env (sent it))
         (iterations (loop env fuel t)).
Proof.
  revert t. induction fuel as [ | fuel IH ]; intros t; cbn.
  - constructor.
  - destruct (gateway env t) as [ reply | first rest | p ] eqn:Hg; cbn;
      repeat constructor; auto.
Qed.

(** ** Length of the transcript *)

Lemma loop_reply_length env (fuel : nat) t (text : string) :
  outcome (loop env fuel t) = Reply text ->
  length (tool_iterations (loop env fuel t)) < fuel
  /\ length (transcript (loop env fuel t)) =
       length t + sum_list (map weight (tool_iterations (loop env fuel t))) + 1.
Proof.
  revert t. induction fuel as [ | fuel IH ]; intros t; cbn.
  - discriminate.
  - destruct (gateway env t) as [ reply | first rest | p ]; cbn.
    + intros _. rewrite length_app. cbn. lia.
    + set (t' := t ++ _). intros Hout.
      destruct (IH t' Hout) as [Hk Hlen].
      unfold tool_iterations in *. cbn.
      split; [ lia | ].
      rewrite Hlen. subst t'. rewrite length_app. cbn.
      rewrite length_map, execute_tools_in_order, length_map.
      cbn [length]. lia.
    + discriminate.
Qed.

Lemma sum_weight_single (its : list Iteration) :
  Forall (fun it => length (calls_of (received it)) = 1) its ->
  sum_list (map weight its) = 2 * length its.
Proof.
  intros Hone. rewrite (sum_list_fmap_same 2); [ lia | ].
  eapply Forall_impl; [ exact Hone | ].
  intros it Hit. unfold weight. now rewrite Hit.
Qed.

(** C2, as the controller behaves: a turn that ends in a text after [k]
    tool-call passes has [k] below the cap, and its transcript has grown by
    the user message, by one request message and one result for each call
    of every tool-call pass, and by the final text; when every pass
    requested one call this is 1 + 2 k + 1. *)
Theorem completed_turn_length env (session : Transcript) (userText text : string) :
  let r := handleTurn env session userText in
  let k := length (tool_iterations r) in
  outcome r = Reply text ->
  k < cap env
  /\ length (transcript r) =
       length session + 1 + sum_list (map weight (tool_iterations r)) + 1
  /\ (Forall (fun it => length (calls_of (received it)) = 1) (tool_iterations r) ->
       length (transcript r) = length session + 1 + 2 * k + 1).
Proof.
  intros r k Hout. subst r k. unfold handleTurn in *.
  destruct (loop_reply_length _ _ _ _ Hout) as [Hk Hlen].
  rewrite length_app in Hlen. cbn [length] in Hlen.
  split; [ exact Hk | ]. split; [ exact Hlen | ].
  intros Hone. rewrite Hlen, (sum_weight_single _ Hone). reflexivity.
Qed.

(** ** Termination and the cap *)

(** C3: the loop is total and makes at most [cap] passes, for any gateway;
    a turn all of whose passes received tool calls, in particular under a
    gateway that always requests tools, has made [cap] passes and ends in
    ConversationStalled; a text is only returned for a pass that received
    it. *)
Theorem cap_yields_stalled env (session : Transcript) (userText : string) :
  let r := handleTurn env session userText in
  length (iterations r) <= cap env
  /\ (Forall (fun it => is_tool_calls (received it) = true) (iterations r) ->
       outcome r = Failed ConversationStalled
       /\ length (iterations r) = cap env)
  /\ ((forall t, is_tool_calls (gateway env t) = true) ->
       outcome r = Failed ConversationStalled
       /\ length (iterations r) = cap env)
  /\ (forall text, outcome r = Reply text ->
       exists it, last (iterations r) = Some it /\ received it = Text text).
Proof.
  intros r. subst r. unfold handleTurn.
  set (t := session ++ [user_message userText]).
  split; [ apply loop_bounded | ].
  split; [ apply loop_all_tools | ].
  split.
  - intros Hg. apply loop_all_tools.
    eapply Forall_impl; [ apply loop_received | ].
    cbn. intros it ->. apply Hg.
  - intros text Hout. pose proof (loop_outcome env (cap env) t) as H.
    rewrite Hout in H. exact H.
Qed.

(** ** The transcript only grows *)

Lemma follows_lookup env t (its : list Iteration) (n : nat) (a b : Iteration) :
  follows env t its ->
  its !! n = Some a -> its !! S n = Some b ->
  sent b = sent a ++ produced a.
Proof.
  revert t n. induction its as [ | it its IH ]; intros t n Hf Ha Hb.
  - discriminate.
  - destruct Hf as (Hsent & _ & Hrest). destruct n as [ | n ].
    + injection Ha as ->. destruct its as [ | it' its ]; [ discriminate | ].
      injection Hb as ->. destruct Hrest as (-> & _). now rewrite Hsent.
    + now apply (IH _ n Hrest).
Qed.

(** C4: the transcript sent to the gateway on a pass is the one sent on
    the pass before with the messages of that pass appended, so every
    earlier entry is where and what it was; the first pass sends the session
    followed by the user message, and every pass records the answer to
    what it sent.  On the page the message list, from which each posted
    history is taken, only grows at its end. *)
Theorem transcript_is_append_only
    env (session : Transcript) (userText : string) (n : nat) (a b : Iteration) :
  let r := handleTurn env session userText in
  iterations r !! n = Some a ->
  iterations r !! S n = Some b ->
  sent b = sent a ++ produced a
  /\ (forall i m, sent a !! i = Some m -> sent b !! i = Some m)
  /\ received a = gateway env (sent a)
  /\ received b = gateway env (sent b)
  /\ (forall first, iterations r !! 0 = Some first ->
        sent first = session ++ [user_message userText])
  /\ (forall (opened : Z) events more,
        Client.conversationHistory
          (Client.messages (Client.ui (Client.run (Client.start opened) events)))
        `prefix_of`
        Client.conversationHistory
          (Client.messages
             (Client.ui (Client.run (Client.start opened) (events ++ more))))).
Proof.
  intros r Ha Hb. subst r. unfold handleTurn in *.
  set (t := session ++ [user_message userText]) in *.
  pose proof (loop_follows env (cap env) t) as Hf.
  pose proof (loop_received env (cap env) t) as Hr.
  rewrite Forall_lookup in Hr.
  assert (Hab : sent b = sent a ++ produced a)
    by exact (follows_lookup _ _ _ _ _ _ Hf Ha Hb).
  split; [ exact Hab | ].
  split; [ intros i m Hi; rewrite Hab; now apply lookup_app_l_Some | ].
  split; [ exact (Hr _ _ Ha) | ].
  split; [ exact (Hr _ _ Hb) | ].
  split.
  - intros first H0.
    destruct (iterations (loop env (cap env) t)) as [ | it its ]; [ discriminate | ].
    injection H0 as ->. now destruct Hf.
  - intros opened events more. rewrite run_app.
    destruct (run_messages (Client.run (Client.start opened) events) more) as [k ->].
    unfold Client.conversationHistory. rewrite map_app.
    now apply prefix_app_r.
Qed.

(** ** Request order *)

(** C6: in whatever order the executions of one pass complete, the
    results collected are those of the requests in request order, and the
    messages a tool-call pass appends are the request followed by the
    results in that order. *)
Theorem results_in_request_order
    env calls arrived (session : Transcript) (userText : string) :
  arrived ≡ₚ launch env calls ->
  collect (length calls) arrived = map (invoke env) calls
  /\ map tool_message (collect (length calls) arrived) =
       map (fun call => tool_message (invoke env call)) calls
  /\ Forall (fun it =>
               forall first rest, received it = ToolCalls first rest ->
                 produced it =
                   request_message (first :: rest)
                   :: map (fun call => tool_message (invoke env call)) (first :: rest))
            (iterations (handleTurn env session userText)).
Proof.
  intros Hperm.
  assert (Hc : collect (length calls) arrived = map (invoke env) calls)
    by now apply collect_perm.
  split; [ exact Hc | ].
  split; [ now rewrite Hc, map_map | ].
  eapply Forall_impl; [ apply loop_produced | ].
  cbn. intros it Hp first rest Hrec. now rewrite Hp, Hrec.
Qed.

End TurnController.

(** * Concrete runs *)

Section PageRuns.

Import Js.
Local Open Scope Z_scope.

(** Two answers with status 500 fall in the same branch, yet the text
    shown is whatever [detail] the server sent. *)
Lemma server_detail_is_shown :
  Client.category (Client.http_error 500 (Some Client.sample_detail))
    = Client.category (Client.http_error 500 None)
  /\ Client.errorContent (Client.http_error 500 (Some Client.sample_detail))
     = Client.sample_detail
  /\ Client.errorContent (Client.http_error 500 (Some Client.sample_detail))
     <> Client.errorContent (Client.http_error 500 None).
Proof.
  split; [ reflexivity | ]. split; [ reflexivity | ].
  vm_compute. discriminate.
Qed.

Lemma failed_turn_reply_witness :
  Client.errorContent (Client.http_error 401 (Some Client.sample_detail))
    = Client.MSG_401
  /\ Client.errorContent (Client.http_error 500 (Some Client.sample_detail))
     = Client.sample_detail
  /\ Client.errorContent Client.invalid_response = Client.MSG_INVALID.
Proof.
  split; [ | split ].
  - apply (proj1 (failed_turn_reply
                    (Client.http_error 401 (Some Client.sample_detail)))).
    reflexivity.
  - apply (proj1 (proj2 (failed_turn_reply
                    (Client.http_error 500 (Some Client.sample_detail))))
             {| Client.status := 500;
                Client.data := Some {| Client.detail := Some Client.sample_detail;
                                       Client.data_message := None |} |});
      reflexivity.
  - apply (proj2 (proj2 (failed_turn_reply Client.invalid_response))).
    reflexivity.
Defined.

(** A call that fails with status 500 and a detail: the assistant message
    appended for the turn is the server's text, none of the page's own. *)
Lemma failure_reply_is_server_text :
  let w := Client.run (Client.start 0) Client.sample_past in
  let outcome := Client.Rejected (Client.http_error 500 (Some Client.sample_detail)) in
  let w2 := Client.step
              (Client.run (Client.step w (Client.Send 5)) Client.sample_between)
              (Client.Settle 0 9 outcome) in
  last (Client.messages (Client.ui w2)) =
    Some {| Client.role := Client.assistant;
            Client.content := Client.sample_detail;
            Client.timestamp := 9 |}
  /\ ~ Client.apology Client.sample_detail.
Proof.
  split; [ reflexivity | exact sample_detail_is_no_apology ].
Qed.

Lemma turns_never_interleave_witness :
  let w := Client.run (Client.start 0) (Client.sample_past ++ [Client.Send 5]) in
  Client.in_flight w <> [] /\ Client.step w (Client.Send 7) = w.
Proof.
  intros w.
  assert (Hp : Client.in_flight w <> []) by (vm_compute; discriminate).
  split; [ exact Hp | ].
  apply (proj2 (turns_never_interleave 0 (Client.sample_past ++ [Client.Send 5]))).
  exact Hp.
Defined.

Lemma turn_appends_user_then_assistant_witness :
  let w := Client.run (Client.start 0) Client.sample_past in
  let outcome := Client.Rejected (Client.http_error 402 None) in
  let w2 := Client.step
              (Client.run (Client.step w (Client.Send 5)) Client.sample_between)
              (Client.Settle 0 9 outcome) in
  Client.messages (Client.ui w2) =
    [ {| Client.role := Client.assistant; Client.content := Client.GREETING;
         Client.timestamp := 0 |};
      {| Client.role := Client.user; Client.content := lit "Do you take walk-ins?";
         Client.timestamp := 5 |};
      {| Client.role := Client.assistant; Client.content := Client.MSG_402;
         Client.timestamp := 9 |} ]
  /\ Client.isLoading (Client.ui w2) = false.
Proof.
  intros w outcome w2.
  destruct (turn_appends_user_then_assistant
              0 Client.sample_past Client.sample_between 5 9 outcome)
    as (Hm & _ & Hl & _); [ reflexivity | reflexivity | reflexivity | ].
  split; [ exact Hm | exact Hl ].
Defined.

Lemma history_is_snapshot_before_send_witness :
  let st := Client.ui (Client.run (Client.start 0) Client.sample_past) in
  let req := {| Client.message := lit "Do you take walk-ins?";
                Client.conversation_history :=
                  [ {| Client.entry_role := Client.assistant;
                       Client.entry_content := Client.GREETING |} ] |} in
  snd (Client.handleSend 5 st) = Some req
  /\ Client.conversation_history req = Client.conversationHistory (Client.messages st)
  /\ Client.message req = trim (Client.input st).
Proof.
  intros st req.
  split; [ reflexivity | ].
  destruct (history_is_snapshot_before_send
              0 Client.sample_past 5 (fst (Client.handleSend 5 st)) req)
    as (Hm & Hh & _); [ reflexivity | ].
  split; [ exact Hh | exact Hm ].
Defined.

End PageRuns.

Section ControllerRuns.

Import Js.

(** One pass with two tool calls: the turn ends in a text after one
    tool-call pass, and the transcript has five new messages, not four. *)
Lemma two_calls_in_one_pass :
  let r := Controller.handleTurn Controller.two_calls_then_text [] "Move my visit." in
  Controller.outcome r = Controller.Reply "Your appointment is moved."
  /\ length (Controller.tool_iterations r) = 1
  /\ 1 <= Controller.cap Controller.two_calls_then_text
  /\ length (Controller.transcript r) = 5
  /\ length (Controller.transcript r) <> 0 + 1 + 2 * 1 + 1.
Proof.
  vm_compute. repeat split; try lia.
Qed.

Lemma completed_turn_length_witness :
  let r := Controller.handleTurn Controller.one_call_then_text [] "Move my visit." in
  Controller.outcome r = Controller.Reply "Your appointment is moved."
  /\ length (Controller.transcript r) = 0 + 1 + 2 * 1 + 1.
Proof.
  intros r. split; [ reflexivity | ].
  destruct (completed_turn_length Controller.one_call_then_text []
              "Move my visit." "Your appointment is moved.")
    as (_ & _ & Hlen); [ reflexivity | ].
  apply Hlen. repeat constructor.
Defined.

Lemma cap_yields_stalled_witness :
  let r := Controller.handleTurn (Controller.always_tools 6) [] "Move my visit." in
  Controller.outcome r = Controller.Failed Controller.ConversationStalled
  /\ length (Controller.iterations r) = 6.
Proof.
  intros r.
  apply (proj1 (proj2 (proj2
           (cap_yields_stalled (Controller.always_tools 6) [] "Move my visit.")))).
  intros t. reflexivity.
Defined.

Lemma transcript_is_append_only_witness :
  let r := Controller.handleTurn Controller.two_calls_then_text [] "Move my visit." in
  Controller.iterations r !! 0 = Some (Controller.pass r 0)
  /\ Controller.iterations r !! 1 = Some (Controller.pass r 1)
  /\ Controller.sent (Controller.pass r 1) =
       Controller.sent (Controller.pass r 0) ++ Controller.produced (Controller.pass r 0).
Proof.
  intros r. split; [ reflexivity | ]. split; [ reflexivity | ].
  apply (transcript_is_append_only Controller.two_calls_then_text []
           "Move my visit." 0 (Controller.pass r 0) (Controller.pass r 1));
    reflexivity.
Defined.

Lemma results_in_request_order_witness :
  let env := Controller.two_calls_then_text in
  let calls := [Controller.lookup_patient; Controller.reschedule_appointment] in
  Controller.arrivals env calls = rev (Controller.launch env calls)
  /\ Controller.collect (length calls) (Controller.arrivals env calls) =
       map (Controller.invoke env) calls.
Proof.
  intros env calls. split; [ reflexivity | ].
  apply (results_in_request_order env calls (Controller.arrivals env calls)
           [] "Move my visit.").
  change (Controller.arrivals env calls) with (rev (Controller.launch env calls)).
  symmetry. apply Permutation_rev.
Defined.

End ControllerRuns.

(** * String primitives *)

Section Strings.

Import Js Page.

Implicit Types (s p sub pre post : str) (c : N).

Lemma eqb_eq s p : eqb s p = true <-> s = p.
Proof.
  revert p. induction s as [ | x s IH ]; intros [ | y p ]; cbn;
    try (split; [ discriminate | discriminate ]); [ tauto | ].
  rewrite andb_true_iff, N.eqb_eq, IH. split.
  - intros [-> ->]. reflexivity.
  - intros [= -> ->]. auto.
Qed.

Lemma starts_with_spec p s :
  starts_with p s = true <-> exists post, s = p ++ post.
Proof.
  revert s. induction p as [ | x p IH ]; intros s; cbn.
  - split; eauto.
  - destruct s as [ | y s ].
    + split; [ discriminate | intros [post H]; discriminate H ].
    + rewrite andb_true_iff, N.eqb_eq, IH. split.
      * intros [-> [post ->]]. eauto.
      * intros [post [= -> ->]]. eauto.
Qed.

Lemma includes_spec sub s :
  includes sub s = true <-> exists pre post, s = pre ++ sub ++ post.
Proof.
  induction s as [ | y s IH ].
  - cbn [includes]. rewrite orb_false_r, starts_with_spec. split.
    + intros [post H]. exists [], post. exact H.
    + intros (pre & post & H). symmetry in H.
      apply app_eq_nil in H as [-> H]. exists post. now symmetry.
  - cbn [includes]. rewrite orb_true_iff, starts_with_spec, IH. split.
    + intros [ [post H] | (pre & post & H) ].
      * exists [], post. exact H.
      * exists (y :: pre), post. now rewrite H.
    + intros ([ | x pre ] & post & H).
      * left. eauto.
      * injection H as -> H. right. eauto.
Qed.

Lemma blank_app s p : blank (s ++ p) = blank s && blank p.
Proof. apply forallb_app. Qed.

Lemma blank_rev s : blank (rev s) = blank s.
Proof.
  induction s as [ | c s IH ]; [ reflexivity | ].
  cbn [rev]. rewrite blank_app, IH. unfold blank. cbn.
  rewrite andb_true_r. apply andb_comm.
Qed.

Lemma trim_start_split s :
  exists pre, s = pre ++ trim_start s /\ blank pre = true.
Proof.
  induction s as [ | c s (pre & Hs & Hpre) ]; cbn [trim_start].
  - exists []. auto.
  - destruct (is_white_space c) eqn:Hc.
    + exists (c :: pre). unfold blank in *. cbn.
      rewrite Hc, Hpre. split; [ now f_equal | reflexivity ].
    + exists []. auto.
Qed.

Lemma trim_start_head s c p :
  trim_start s = c :: p -> is_white_space c = false.
Proof.
  induction s as [ | x s IH ]; cbn [trim_start]; [ discriminate | ].
  destruct (is_white_space x) eqn:Hx; [ exact IH | ].
  intros [= <- _]. exact Hx.
Qed.

Lemma trim_start_blank s : blank s = true -> trim_start s = [].
Proof.
  unfold blank. induction s as [ | c s IH ]; cbn; [ reflexivity | ].
  destruct (is_white_space c); [ exact IH | discriminate ].
Qed.

Lemma trim_start_fixed c s :
  is_white_space c = false -> trim_start (c :: s) = c :: s.
Proof. intros Hc. cbn. now rewrite Hc. Qed.

Lemma trim_end_split s :
  exists post, s = trim_end s ++ post /\ blank post = true.
Proof.
  destruct (trim_start_split (rev s)) as (pre & Hs & Hpre).
  exists (rev pre). split; [ | now rewrite blank_rev ].
  unfold trim_end. rewrite <- rev_app_distr, <- Hs. now rewrite rev_involutive.
Qed.

Lemma trim_end_last s c :
  last (trim_end s) = Some c -> is_white_space c = false.
Proof.
  unfold trim_end. intros Hlast.
  destruct (trim_start (rev s)) as [ | x p ] eqn:Ht; [ discriminate | ].
  cbn [rev] in Hlast. rewrite last_snoc in Hlast. injection Hlast as <-.
  exact (trim_start_head _ _ _ Ht).
Qed.

Lemma trim_end_fixed s c :
  last s = Some c -> is_white_space c = false -> trim_end s = s.
Proof.
  intros Hlast Hc. apply last_Some in Hlast as [p ->].
  unfold trim_end. rewrite rev_app_distr. cbn [rev app].
  rewrite trim_start_fixed by assumption.
  change (c :: rev p) with ([c] ++ rev p).
  now rewrite rev_app_distr, rev_involutive.
Qed.

Lemma trim_split s :
  exists pre post,
    s = pre ++ trim s ++ post /\ blank pre = true /\ blank post = true.
Proof.
  destruct (trim_start_split s) as (pre & Hs & Hpre).
  destruct (trim_end_split (trim_start s)) as (post & Hu & Hpost).
  exists pre, post. unfold trim. rewrite <- Hu. auto.
Qed.

Lemma trim_head s c p : trim s = c :: p -> is_white_space c = false.
Proof.
  unfold trim. intros Ht.
  destruct (trim_end_split (trim_start s)) as (post & Hu & _).
  rewrite Ht in Hu. exact (trim_start_head _ _ _ Hu).
Qed.

Lemma trim_last s c : last (trim s) = Some c -> is_white_space c = false.
Proof. apply trim_end_last. Qed.

Lemma trim_blank s : trim s = [] <-> blank s = true.
Proof.
  split.
  - intros Ht. destruct (trim_split s) as (pre & post & Hs & Hpre & Hpost).
    rewrite Ht in Hs. rewrite Hs, blank_app, Hpre. exact Hpost.
  - intros Hb. unfold trim. now rewrite trim_start_blank.
Qed.

Lemma trim_idempotent s : trim (trim s) = trim s.
Proof.
  destruct (trim s) as [ | c p ] eqn:Ht; [ reflexivity | ].
  unfold trim. rewrite trim_start_fixed by exact (trim_head _ _ _ Ht).
  destruct (last (c :: p)) as [ d | ] eqn:Hlast.
  - apply (trim_end_fixed _ d Hlast). apply (trim_last s). now rewrite Ht.
  - now apply last_None in Hlast.
Qed.

Lemma truthy_trim s : truthy (trim s) = negb (blank s).
Proof.
  destruct (trim s) as [ | c p ] eqn:Ht; cbn.
  - apply trim_blank in Ht. now rewrite Ht.
  - destruct (blank s) eqn:Hb; [ | reflexivity ].
    apply trim_blank in Hb. congruence.
Qed.

End Strings.

(** * Further properties of the chat page *)

Section PageGuards.

Import Js Client Page.
Local Open Scope Z_scope.

Implicit Types (st : State) (w : World) (e : Event) (now : Z).

(** X1: sending does nothing and posts nothing when the input holds
    white space only (or is empty) or when a call is pending, and posts a
    request in every other state. *)
Theorem send_is_guarded st now :
  (blank (input st) = true \/ isLoading st = true ->
     handleSend now st = (st, None))
  /\ (blank (input st) = false -> isLoading st = false ->
      exists st' req, handleSend now st = (st', Some req)).
Proof.
  split.
  - intros [Hb | Hl].
    + unfold handleSend. now rewrite truthy_trim, Hb.
    + now apply handleSend_busy.
  - intros Hb Hl. eexists _, _. apply handleSend_dispatch; [ | exact Hl ].
    now rewrite truthy_trim, Hb.
Qed.

(** X2: the text posted is the input without the white space around it:
    it is not empty, it neither starts nor ends with white space, the input
    is this text between two runs of white space, and trimming it again
    changes nothing.  The same text is the content of the user message
    appended, and the input box is emptied. *)
Theorem posted_message_is_trimmed st now st' (req : ChatRequest) :
  handleSend now st = (st', Some req) ->
  message req <> []
  /\ (exists pre post,
        input st = pre ++ message req ++ post
        /\ blank pre = true /\ blank post = true)
  /\ (forall c, head (message req) = Some c -> is_white_space c = false)
  /\ (forall c, last (message req) = Some c -> is_white_space c = false)
  /\ trim (message req) = message req
  /\ last (messages st') =
       Some {| role := user; content := message req; timestamp := now |}
  /\ input st' = [].
Proof.
  intros Hsend.
  destruct (handleSend_request _ _ _ _ Hsend) as [Hin Hload].
  rewrite handleSend_dispatch in Hsend by assumption.
  injection Hsend as <- <-. cbn [message messages input].
  split; [ intros H; now rewrite H in Hin | ].
  split; [ apply trim_split | ].
  split.
  { intros c Hc. destruct (trim (input st)) as [ | x p ] eqn:Ht; [ discriminate | ].
    injection Hc as ->. exact (trim_head _ _ _ Ht). }
  split; [ intros c; apply trim_last | ].
  split; [ apply trim_idempotent | ].
  split; [ apply last_snoc | reflexivity ].
Qed.

(** X4: in every reachable state the text input is disabled exactly while
    a call is pending, the button is disabled then too, and an enabled
    button means that no call is pending and that a click posts the
    trimmed, non-empty input. *)
Theorem controls_follow_pending_call (t0 : Z) (events : list Event) now :
  let w := run (start t0) events in
  (input_disabled (ui w) = true <-> in_flight w <> [])
  /\ (in_flight w <> [] -> button_disabled (ui w) = true)
  /\ (button_disabled (ui w) = false ->
      in_flight w = []
      /\ exists st' req,
           handleSend now (ui w) = (st', Some req)
           /\ message req = trim (input (ui w))
           /\ message req <> []).
Proof.
  intros w.
  assert (Hc : consistent w) by apply run_consistent, start_consistent.
  unfold consistent in Hc. unfold input_disabled, button_disabled.
  destruct (isLoading (ui w)) eqn:Hload.
  - split; [ | split ].
    + split; [ | reflexivity ]. intros _ Hnil. now rewrite Hnil in Hc.
    + intros _. apply orb_true_r.
    + rewrite orb_true_r. discriminate.
  - destruct (in_flight w) as [ | ? ? ]; [ | discriminate ].
    split; [ | split ].
    + split; [ discriminate | congruence ].
    + congruence.
    + rewrite orb_false_r. intros Hin. apply negb_false_iff in Hin.
      split; [ reflexivity | ].
      eexists _, _. split; [ now apply handleSend_dispatch | ].
      cbn. split; [ reflexivity | ].
      intros H. now rewrite H in Hin.
Qed.

End PageGuards.

Section PageInvariants.

Import Js Client Page.
Local Open Scope Z_scope.

Implicit Types (st : State) (w : World) (e : Event) (now : Z).

Lemma even_length_snoc {A} (l : list A) (x : A) :
  Nat.even (length (l ++ [x])) = negb (Nat.even (length l)).
Proof.
  rewrite length_app. cbn [length]. rewrite Nat.add_1_r, Nat.even_succ.
  now rewrite <- Nat.negb_even.
Qed.

Lemma step_alternating w e :
  consistent w /\ alternating (ui w) ->
  consistent (step w e) /\ alternating (ui (step w e)).
Proof.
  intros [Hc [Hroles Hparity]].
  split; [ now apply step_consistent | ].
  unfold consistent in Hc. unfold alternating.
  destruct e as [text | now | i now outcome]; cbn [step].
  - split; assumption.
  - destruct (isLoading (ui w)) eqn:Hload.
    + rewrite handleSend_busy by assumption. cbn. split; [ assumption | ].
      now rewrite Hload.
    + destruct (truthy (trim (input (ui w)))) eqn:Hin.
      * rewrite handleSend_dispatch by assumption.
        cbn [ui messages isLoading]. split.
        -- intros j m Hj. apply lookup_snoc_Some in Hj as [ [_ Hj] | [-> <-] ].
           ++ now apply Hroles.
           ++ cbn. unfold expected_role. now rewrite Hparity.
        -- now rewrite even_length_snoc, Hparity.
      * unfold handleSend. rewrite Hin. cbn. split; [ assumption | ].
        now rewrite Hload.
  - destruct (in_flight w !! i) eqn:Hi; [ | split; assumption ].
    apply lookup_lt_Some in Hi.
    destruct (isLoading (ui w)) eqn:Hload; [ | lia ].
    unfold handleSend_settled. cbn [ui messages isLoading]. split.
    + intros j m Hj. apply lookup_snoc_Some in Hj as [ [_ Hj] | [-> <-] ].
      * now apply Hroles.
      * cbn. unfold expected_role. now rewrite Hparity.
    + now rewrite even_length_snoc, Hparity.
Qed.

Lemma run_alternating w events :
  consistent w /\ alternating (ui w) ->
  consistent (run w events) /\ alternating (ui (run w events)).
Proof.
  revert w. induction events as [ | e events IH ]; intros w Hw; cbn.
  - exact Hw.
  - apply IH, step_alternating, Hw.
Qed.

Lemma start_alternating now : alternating (ui (start now)).
Proof.
  split; [ | reflexivity ].
  intros [ | i ] m; cbn; [ | discriminate ]. now intros [= <-].
Qed.

(** X5: in every reachable state the messages alternate, assistant at the
    even positions (the greeting first) and user at the odd ones; the list
    has odd length and ends in an assistant message when no call is
    pending, and ends in the user message just sent while one is. *)
Theorem roles_alternate (t0 : Z) (events : list Event) :
  let st := ui (run (start t0) events) in
  (forall i m, messages st !! i = Some m -> role m = expected_role i)
  /\ Nat.even (length (messages st)) = isLoading st
  /\ (forall m, last (messages st) = Some m ->
        role m = if isLoading st then user else assistant).
Proof.
  intros st.
  destruct (run_alternating (start t0) events) as [_ [Hroles Hparity]];
    [ split; [ apply start_consistent | apply start_alternating ] | ].
  fold st in Hroles, Hparity.
  split; [ exact Hroles | ]. split; [ exact Hparity | ].
  intros m Hlast. rewrite last_lookup in Hlast.
  rewrite (Hroles _ _ Hlast). unfold expected_role.
  destruct (messages st) as [ | m0 ms ]; [ discriminate | ].
  cbn [length] in *. cbn [Nat.pred].
  rewrite Nat.even_succ, <- Nat.negb_even in Hparity.
  destruct (Nat.even (length ms)), (isLoading st); try reflexivity; discriminate.
Qed.

Lemma truthy_or_else (a : option str) (b : str) :
  truthy b = true -> truthy (or_else a b) = true.
Proof.
  intros Hb. destruct a as [ s | ]; cbn; [ | exact Hb ].
  destruct (truthy s) eqn:Hs; assumption.
Qed.

Lemma errorContent_filled (error : RequestError) :
  truthy (errorContent error) = true.
Proof.
  unfold errorContent.
  destruct (error_response error) as [ r | ].
  - destruct (status r =? 402); [ reflexivity | ].
    destruct (status r =? 401); [ reflexivity | ].
    destruct (status r =? 500); [ now apply truthy_or_else | ].
    destruct (status r =? 400); now apply truthy_or_else.
  - destruct (error_request error).
    + destruct (is_timeout error); reflexivity.
    + now apply truthy_or_else.
Qed.

Lemma reply_filled (outcome : PostOutcome) : truthy (reply outcome) = true.
Proof.
  destruct outcome as [ [ [ [ text | ] ] | ] | error ]; cbn [reply].
  - cbn. destruct (truthy text) eqn:Ht; [ exact Ht | reflexivity ].
  - reflexivity.
  - reflexivity.
  - apply errorContent_filled.
Qed.

Lemma step_filled w e : filled (ui w) -> filled (ui (step w e)).
Proof.
  unfold filled. intros Hw.
  destruct e as [text | now | i now outcome]; cbn [step].
  - exact Hw.
  - unfold handleSend.
    destruct (truthy (trim (input (ui w)))) eqn:Hin; cbn; [ | exact Hw ].
    destruct (isLoading (ui w)); cbn; [ exact Hw | ].
    apply Forall_app. split; [ exact Hw | ]. now repeat constructor.
  - destruct (in_flight w !! i); [ | exact Hw ]. cbn.
    apply Forall_app. split; [ exact Hw | ].
    repeat constructor. apply reply_filled.
Qed.

(** X6: no message of the list ever has an empty text: not the greeting,
    not a user message, and not an assistant message, whatever the server
    answered and however the call failed. *)
Theorem no_empty_message (t0 : Z) (events : list Event) (m : Message) :
  m ∈ messages (ui (run (start t0) events)) -> content m <> [].
Proof.
  assert (Hall : filled (ui (run (start t0) events))).
  { generalize (start t0) (ltac:(repeat constructor) : filled (ui (start t0))).
    induction events as [ | e events IH ]; intros w Hw; cbn.
    - exact Hw.
    - apply IH, step_filled, Hw. }
  unfold filled in Hall. rewrite Forall_forall in Hall.
  intros Hin Hnil. specialize (Hall m Hin). now rewrite Hnil in Hall.
Qed.

(** X14: the history posted with a turn has odd length, starts and ends
    with an assistant entry, and alternates between assistant and user, so
    that with the new user message after it the roles alternate throughout. *)
Theorem posted_history_alternates
    (t0 : Z) (events : list Event) now st' (req : ChatRequest) :
  handleSend now (ui (run (start t0) events)) = (st', Some req) ->
  Nat.odd (length (conversation_history req)) = true
  /\ (forall i h, conversation_history req !! i = Some h ->
        entry_role h = expected_role i)
  /\ (exists h, last (conversation_history req) = Some h
                /\ entry_role h = assistant)
  /\ (forall i m, messages st' !! i = Some m -> role m = expected_role i).
Proof.
  intros Hsend.
  destruct (run_alternating (start t0) events) as [Hc Halt];
    [ split; [ apply start_consistent | apply start_alternating ] | ].
  destruct (step_alternating _ (Send now) (conj Hc Halt)) as [_ [Hroles' _]].
  cbn [step] in Hroles'. rewrite Hsend in Hroles'. cbn [ui] in Hroles'.
  destruct Halt as [Hroles Hparity].
  destruct (handleSend_request _ _ _ _ Hsend) as [Hin Hload].
  rewrite handleSend_dispatch in Hsend by assumption.
  injection Hsend as _ <-. cbn [conversation_history].
  set (ms := messages (ui (run (start t0) events))) in *.
  rewrite Hload in Hparity.
  assert (Hlen : length (conversationHistory ms) = length ms)
    by (unfold conversationHistory; apply length_map).
  split; [ now rewrite Hlen, <- Nat.negb_even, Hparity | ].
  split.
  { intros i h Hi. unfold conversationHistory in Hi.
    rewrite list_lookup_fmap in Hi.
    destruct (ms !! i) as [ m | ] eqn:Hm; [ | discriminate ].
    injection Hi as <-. cbn. now apply Hroles. }
  split; [ | exact Hroles' ].
  destruct (last ms) as [ m | ] eqn:Hlast.
  - exists {| entry_role := role m; entry_content := content m |}.
    apply last_Some in Hlast as [front Hms].
    split.
    + rewrite Hms. unfold conversationHistory. rewrite map_app. apply last_snoc.
    + assert (Hm : ms !! length front = Some m)
        by (rewrite Hms; apply list_lookup_middle; reflexivity).
      cbn. rewrite (Hroles _ _ Hm). unfold expected_role.
      rewrite Hms, even_length_snoc in Hparity.
      apply negb_false_iff in Hparity. now rewrite Hparity.
  - apply last_None in Hlast. rewrite Hlast in Hparity. discriminate.
Qed.

End PageInvariants.

Section PageErrors.

Import Js Client Page.
Local Open Scope Z_scope.

Implicit Types (st : State) (w : World) (e : Event) (now : Z).

Lemma is_timeout_spec (error : RequestError) :
  is_timeout error = true <->
  error_code error = Some (lit "ECONNABORTED")
  \/ exists m pre post,
       error_message error = Some m /\ m = pre ++ lit "timeout" ++ post.
Proof.
  unfold is_timeout. rewrite orb_true_iff. split.
  - intros [Hc | Hm].
    + left. destruct (error_code error) as [ c | ]; [ | discriminate ].
      apply eqb_eq in Hc. now subst c.
    + right. destruct (error_message error) as [ m | ]; [ | discriminate ].
      apply includes_spec in Hm as (pre & post & Hm). eauto.
  - intros [Hc | (m & pre & post & Hm & Hs)].
    + left. rewrite Hc. now apply eqb_eq.
    + right. rewrite Hm. apply includes_spec. eauto.
Qed.

(** X7: when no response was received, the text is the timeout text
    exactly when the error code is ECONNABORTED or the error message
    contains the word timeout in lower case, and the text about the
    connection otherwise; nothing the error carries is shown. *)
Theorem no_response_text (error : RequestError) :
  error_response error = None ->
  error_request error = true ->
  (errorContent error = MSG_TIMEOUT <->
     error_code error = Some (lit "ECONNABORTED")
     \/ exists m pre post,
          error_message error = Some m /\ m = pre ++ lit "timeout" ++ post)
  /\ (errorContent error = MSG_TIMEOUT \/ errorContent error = MSG_NETWORK).
Proof.
  intros Hr Hq. rewrite <- is_timeout_spec.
  unfold errorContent. rewrite Hr, Hq.
  destruct (is_timeout error); split; auto.
  - tauto.
  - split; [ | discriminate ]. intros H. vm_compute in H. discriminate H.
Qed.

(** X9: for a status other than 402 and 401 the text comes from the body
    of the answer: its [detail] when that is a non-empty string, else its
    [message] when that is one, and the literal of the status when the body
    is missing or has neither. *)
Theorem body_text_precedence (error : RequestError) (r : ErrorResponse) :
  error_response error = Some r ->
  status r <> 402 -> status r <> 401 ->
  match data r with
  | None => errorContent error = fixed_message (Status (status r))
  | Some body =>
      (truthy_detail (detail body) = true ->
         Some (errorContent error) = detail body)
      /\ (truthy_detail (detail body) = false ->
          truthy_detail (data_message body) = true ->
          Some (errorContent error) = data_message body)
      /\ (truthy_detail (detail body) = false ->
          truthy_detail (data_message body) = false ->
          errorContent error = fixed_message (Status (status r)))
  end.
Proof.
  intros Hr H402 H401.
  assert (Hshape : errorContent error =
                   or_else (Some (detail_of r)) (fixed_message (Status (status r)))).
  { unfold errorContent. rewrite Hr. cbn.
    destruct (Z.eqb_spec (status r) 402); [ contradiction | ].
    destruct (Z.eqb_spec (status r) 401); [ contradiction | ].
    destruct (status r =? 500); [ reflexivity | ].
    destruct (status r =? 400); reflexivity. }
  rewrite Hshape. unfold detail_of.
  destruct (data r) as [ [ d m ] | ]; cbn; [ | reflexivity ].
  split; [ | split ].
  - destruct d as [ [ | c d ] | ]; cbn; try discriminate. reflexivity.
  - intros Hd Hm.
    assert (or_else d (or_else m []) = or_else m []) as ->
      by (destruct d as [ [ | c d ] | ]; cbn in *; try discriminate; reflexivity).
    destruct m as [ [ | c m ] | ]; cbn in *; try discriminate. reflexivity.
  - intros Hd Hm.
    assert (or_else d (or_else m []) = []) as ->.
    { destruct d as [ [ | c d ] | ]; cbn in *; try discriminate;
        destruct m as [ [ | c' m ] | ]; cbn in *; try discriminate; reflexivity. }
    reflexivity.
Qed.

Lemma lit_inj (a b : string) : lit a = lit b -> a = b.
Proof.
  unfold lit. intros H.
  rewrite <- (String.string_of_list_ascii_of_string a),
          <- (String.string_of_list_ascii_of_string b).
  f_equal. revert H.
  generalize (String.list_ascii_of_string a) (String.list_ascii_of_string b).
  induction l as [ | x l IH ]; intros [ | y l' ]; cbn; try discriminate;
    [ reflexivity | ].
  intros [= Hxy Hl]. f_equal; [ | now apply IH ].
  rewrite <- (Ascii.ascii_N_embedding x), <- (Ascii.ascii_N_embedding y).
  now rewrite Hxy.
Qed.

Lemma to_int_not_nil (z : Z) :
  Z.to_int z <> Decimal.Pos Decimal.Nil /\ Z.to_int z <> Decimal.Neg Decimal.Nil.
Proof.
  destruct z as [ | p | p ]; cbn; split; try discriminate; intros [= H];
    now apply DecimalPos.Unsigned.to_uint_nonnil in H.
Qed.

Lemma of_int_inj (a b : Z) : of_int a = of_int b -> a = b.
Proof.
  unfold of_int. intros H. apply lit_inj in H.
  apply DecimalZ.to_int_inj.
  destruct (to_int_not_nil a) as [Ha1 Ha2], (to_int_not_nil b) as [Hb1 Hb2].
  pose proof (NilZero.isi _ Ha1 Ha2) as Ia.
  pose proof (NilZero.isi _ Hb1 Hb2) as Ib.
  rewrite H in Ia. congruence.
Qed.

(** X10: for a status without a branch of its own and an answer without
    detail or message, the text names the status: it is the sentence with
    the decimal status in it, and two different statuses never give the
    same text. *)
Theorem unknown_status_is_named (a b : Z) :
  a <> 402 -> a <> 401 -> a <> 500 -> a <> 400 ->
  b <> 402 -> b <> 401 -> b <> 500 -> b <> 400 ->
  errorContent (http_error a None) =
    lit "Server error (" ++ of_int a ++ lit "). Please try again."
  /\ (errorContent (http_error a None) = errorContent (http_error b None) ->
      a = b).
Proof.
  intros Ha2 Ha1 Ha5 Ha4 Hb2 Hb1 Hb5 Hb4.
  assert (Hshape : forall z, z <> 402 -> z <> 401 -> z <> 500 -> z <> 400 ->
            errorContent (http_error z None) = MSG_STATUS z).
  { intros z H2 H1 H5 H4. unfold errorContent, http_error. cbn.
    destruct (Z.eqb_spec z 402); [ contradiction | ].
    destruct (Z.eqb_spec z 401); [ contradiction | ].
    destruct (Z.eqb_spec z 500); [ contradiction | ].
    destruct (Z.eqb_spec z 400); [ contradiction | ]. reflexivity. }
  rewrite !Hshape by assumption. split; [ reflexivity | ].
  unfold MSG_STATUS. intros H.
  apply app_inv_head, app_inv_tail in H. now apply of_int_inj.
Qed.

Lemma run_typed w (typed : list Event) :
  forallb is_typed typed = true ->
  messages (ui (run w typed)) = messages (ui w)
  /\ isLoading (ui (run w typed)) = isLoading (ui w)
  /\ in_flight (run w typed) = in_flight w.
Proof.
  revert w. induction typed as [ | e typed IH ]; intros w Hev; cbn.
  - auto.
  - cbn in Hev. apply andb_true_iff in Hev as [He Hev].
    destruct e as [text | | ]; try discriminate.
    destruct (IH (step w (Typed text)) Hev) as (Hm & Hl & Hf). auto.
Qed.

(** X8: the history posted with the next turn is the history posted with
    this one, followed by this turn's user message and by the assistant
    message shown for it, whether the call succeeded or failed. *)
Theorem next_history_extends
    (t0 : Z) (past between typed : list Event) now now' now''
    (outcome : PostOutcome) st1 (req : ChatRequest) st2 (req2 : ChatRequest) :
  let w := run (start t0) past in
  handleSend now (ui w) = (st1, Some req) ->
  forallb (fun e => negb (is_settle e)) between = true ->
  forallb is_typed typed = true ->
  let w2 := step (run (step w (Send now)) between) (Settle 0 now' outcome) in
  handleSend now'' (ui (run w2 typed)) = (st2, Some req2) ->
  conversation_history req2 =
    conversation_history req ++
      [ {| entry_role := user; entry_content := message req |};
        {| entry_role := assistant; entry_content := reply outcome |} ].
Proof.
  intros w Hsend Hbetween Htyped w2 Hnext.
  destruct (handleSend_request _ _ _ _ Hsend) as [Hin Hload].
  destruct (dispatched_turn t0 past between now now' outcome Hin Hload Hbetween)
    as (Hmsgs & _).
  fold w in Hmsgs. fold w2 in Hmsgs.
  destruct (run_typed w2 typed Htyped) as (Hm & _).
  rewrite handleSend_dispatch in Hsend by assumption.
  injection Hsend as _ <-.
  destruct (handleSend_request _ _ _ _ Hnext) as [Hin2 Hload2].
  rewrite handleSend_dispatch in Hnext by assumption.
  injection Hnext as _ <-.
  cbn [conversation_history message].
  rewrite Hm, Hmsgs. unfold conversationHistory. now rewrite map_app.
Qed.

End PageErrors.

(** * The Docker initialisation script *)

Section DockerScript.

Import DockerInit.

Implicit Types (host : Host) (cmds : list Command).

(** The loop from [counter], given passes enough: it sleeps [k] times two
    seconds after [k] failed probes, then either a probe succeeds below the
    timeout or the counter has reached it. *)
Lemma wait_loop_spec (fuel : nat) host (timeout counter : nat) :
  1 <= fuel -> timeout + 1 < counter + 2 * fuel ->
  exists k cmds,
    wait_loop fuel host timeout counter = Some (counter + 2 * k, cmds)
    /\ Forall probe_or_sleep cmds
    /\ length (List.filter is_curl cmds)
       = k + (if counter + 2 * k <? timeout then 1 else 0)
    /\ sum_list_with sleep_seconds cmds = 2 * k
    /\ (forall j, j < k ->
          counter + 2 * j < timeout /\ healthy host (counter + 2 * j) = false)
    /\ (counter + 2 * k < timeout -> healthy host (counter + 2 * k) = true)
    /\ (k = 0 \/ counter + 2 * k <= timeout + 1).
Proof.
  revert counter. induction fuel as [ | fuel IH ]; intros counter Hpos Hfuel.
  - exfalso. lia.
  - cbn [wait_loop]. destruct (Nat.ltb_spec counter timeout) as [Hlt | Hge].
    + destruct (healthy host counter) eqn:Hh.
      * exists 0, [Curl counter].
        replace (counter + 2 * 0) with counter by lia.
        split; [ reflexivity | ].
        split; [ repeat constructor | ].
        split; [ now rewrite (proj2 (Nat.ltb_lt _ _) Hlt) | ].
        split; [ reflexivity | ].
        split; [ intros j Hj; lia | ].
        split; [ intros _; exact Hh | now left ].
      * destruct (IH (counter + 2)) as (k & cmds & -> & Hall & Hcurl & Hsleep & Hbad & Hgood & Hbound);
          [ lia | lia | ].
        replace (counter + 2 + 2 * k) with (counter + 2 * S k) in * by lia.
        exists (S k), (Curl counter :: Sleep 2 :: cmds).
        split; [ reflexivity | ].
        split; [ repeat constructor; exact Hall | ].
        split; [ cbn [List.filter is_curl length]; rewrite Hcurl; lia | ].
        split; [ simpl; simpl in Hsleep; rewrite Hsleep; lia | ].
        split.
        { intros [ | j ] Hj.
          - replace (counter + 2 * 0) with counter by lia. auto.
          - replace (counter + 2 * S j) with (counter + 2 + 2 * j) by lia.
            apply Hbad. lia. }
        split; [ exact Hgood | ]. right. lia.
    + exists 0, []. replace (counter + 2 * 0) with counter by lia.
      split; [ reflexivity | ].
      split; [ constructor | ].
      split; [ now rewrite (proj2 (Nat.ltb_ge _ _) Hge) | ].
      split; [ reflexivity | ].
      split; [ intros j Hj; lia | ].
      split; [ intros Hlt; lia | now left ].
Qed.

Lemma docker_init_shape host :
  ((docker_running host = false
    \/ (env_exists host = false /\ template_exists host = false))
   /\ docker_init host =
        Some {| commands := [DockerInfo]; exit_status := Some 1 |})
  \/ (docker_running host = true
      /\ (env_exists host = true \/ template_exists host = true)
      /\ exists k probes,
           docker_init host =
             Some {| commands :=
                       [DockerInfo]
                       ++ (if negb (env_exists host) then [CopyTemplate] else [])
                       ++ [MkdirData; ComposeBuild; ComposeUp]
                       ++ probes
                       ++ (if TIMEOUT <=? 2 * k then [] else [InitDatabase]);
                     exit_status := None |}
           /\ Forall probe_or_sleep probes
           /\ length (List.filter is_curl probes)
              = k + (if 2 * k <? TIMEOUT then 1 else 0)
           /\ sum_list_with sleep_seconds probes = 2 * k
           /\ (forall j, j < k ->
                 2 * j < TIMEOUT /\ healthy host (2 * j) = false)
           /\ (2 * k < TIMEOUT -> healthy host (2 * k) = true)
           /\ 2 * k <= TIMEOUT + 1).
Proof.
  unfold docker_init, script.
  destruct (docker_running host); cbn [negb]; [ | left; auto ].
  destruct (env_exists host) eqn:He, (template_exists host) eqn:Ht;
    cbn [negb andb]; try (left; split; [ auto | reflexivity ]); right;
    (split; [ reflexivity | ]); (split; [ auto | ]);
    destruct (wait_loop_spec (S TIMEOUT) host TIMEOUT 0)
      as (k & probes & Hw & Hall & Hcurl & Hsleep & Hbad & Hgood & Hbound);
    try (unfold TIMEOUT; lia);
    rewrite Hw; cbn [Nat.add] in *;
    exists k, probes; repeat (split; [ assumption || reflexivity | ]);
    unfold TIMEOUT in *; lia.
Qed.

Lemma probe_or_sleep_not (c : Command) cmds :
  Forall probe_or_sleep cmds -> c ∈ cmds -> probe_or_sleep c.
Proof. intros Hall Hin. rewrite Forall_forall in Hall. now apply Hall. Qed.

(** X11: a run of the script in which every command returned has probed
    the health endpoint at most thirty times and slept at most sixty
    seconds in all, however the back end behaved. *)
Theorem finished_run_is_bounded host (run : Run) :
  docker_init host = Some run ->
  length (List.filter is_curl (commands run)) <= 30
  /\ sum_list_with sleep_seconds (commands run) <= 60.
Proof.
  intros Hrun.
  destruct (docker_init_shape host)
    as [ [_ Hs] | (_ & _ & k & probes & Hs & _ & Hcurl & Hsleep & _ & _ & Hbound) ];
    rewrite Hs in Hrun; apply (inj Some) in Hrun; subst run; cbn [commands].
  - cbn. lia.
  - rewrite !List.filter_app, !length_app, !sum_list_with_app, Hcurl, Hsleep.
    unfold TIMEOUT in *.
    destruct (negb (env_exists host)), (Nat.ltb_spec (2 * k) 60),
      (Nat.leb_spec 60 (2 * k)); cbn; lia.
Qed.

(** X12: the database is initialised exactly when Docker runs, an
    environment file exists or can be made from the template, and one of the
    thirty probes, made every two seconds, found the back end healthy; it is
    then the last command of the script. *)
Theorem database_initialised_iff_healthy host (run : Run) :
  docker_init host = Some run ->
  (InitDatabase ∈ commands run <->
     docker_running host = true
     /\ (env_exists host = true \/ template_exists host = true)
     /\ exists k, k < 30 /\ healthy host (2 * k) = true)
  /\ (InitDatabase ∈ commands run -> last (commands run) = Some InitDatabase).
Proof.
  intros Hrun.
  destruct (docker_init_shape host)
    as [ [Hbad Hs] | (Hd & He & k & probes & Hs & Hall & _ & _ & Hfail & Hgood & Hbound) ];
    rewrite Hs in Hrun; apply (inj Some) in Hrun; subst run; cbn [commands].
  - split.
    + split.
      * intros Hin. apply list_elem_of_singleton in Hin. discriminate.
      * intros (Hd & He & _). destruct Hbad as [Hbad | [Hbad1 Hbad2]];
          [ congruence | destruct He; congruence ].
    + intros Hin. apply list_elem_of_singleton in Hin. discriminate.
  - unfold TIMEOUT in *.
    assert (Hmem : forall tail : list Command,
               InitDatabase ∈
                 [DockerInfo]
                 ++ (if negb (env_exists host) then [CopyTemplate] else [])
                 ++ [MkdirData; ComposeBuild; ComposeUp] ++ probes ++ tail
               <-> InitDatabase ∈ tail).
    { intros tail. rewrite !elem_of_app. split; [ | tauto ].
      intros [H | [H | [H | [H | H] ] ] ]; [ | | | | exact H ].
      - apply list_elem_of_singleton in H. discriminate.
      - destruct (negb (env_exists host));
          [ apply list_elem_of_singleton in H; discriminate
          | now apply elem_of_nil in H ].
      - rewrite !elem_of_cons in H.
        destruct H as [H | [H | [H | H] ] ]; try discriminate.
        now apply elem_of_nil in H.
      - apply (probe_or_sleep_not _ _ Hall) in H. destruct H. }
    rewrite Hmem. destruct (Nat.leb_spec 60 (2 * k)) as [Hlate | Hearly].
    + split.
      * split; [ intros H; now apply elem_of_nil in H | ].
        intros (_ & _ & j & Hj & Hh).
        destruct (Hfail j) as [_ Hf]; [ lia | congruence ].
      * intros H. now apply elem_of_nil in H.
    + split.
      * split; [ | intros _; apply list_elem_of_singleton; reflexivity ].
        intros _. split; [ exact Hd | ]. split; [ exact He | ].
        exists k. split; [ lia | apply Hgood; lia ].
      * intros _. rewrite !app_assoc. apply last_snoc.
Qed.

(** X13: an existing environment file is never overwritten: the template
    is copied exactly when Docker runs, there is no environment file and
    the template exists.  The script exits with status 1 exactly when Docker
    does not run or neither file exists, and has then built and started
    nothing. *)
Theorem env_file_is_never_overwritten host (run : Run) :
  docker_init host = Some run ->
  (CopyTemplate ∈ commands run <->
     docker_running host = true
     /\ env_exists host = false /\ template_exists host = true)
  /\ (exit_status run = Some 1 <->
      docker_running host = false
      \/ (env_exists host = false /\ template_exists host = false))
  /\ (exit_status run = Some 1 -> commands run = [DockerInfo])
  /\ (exit_status run <> Some 1 ->
      exit_status run = None
      /\ ComposeBuild ∈ commands run /\ ComposeUp ∈ commands run).
Proof.
  intros Hrun.
  destruct (docker_init_shape host)
    as [ [Hbad Hs] | (Hd & He & k & probes & Hs & Hall & _) ];
    rewrite Hs in Hrun; apply (inj Some) in Hrun; subst run;
    cbn [commands exit_status].
  - split; [ | split; [ | split ] ].
    + split.
      * intros Hin. apply list_elem_of_singleton in Hin. discriminate.
      * intros (Hd & He & Ht). destruct Hbad as [Hbad | [_ Hbad] ]; congruence.
    + tauto.
    + reflexivity.
    + congruence.
  - split; [ | split; [ | split ] ].
    + rewrite !elem_of_app. split.
      * intros [H | [H | [H | [H | H] ] ] ].
        -- apply list_elem_of_singleton in H. discriminate.
        -- destruct (env_exists host) eqn:Hex; cbn in H;
             [ now apply elem_of_nil in H | ].
           destruct He as [He | He]; [ discriminate | auto ].
        -- rewrite !elem_of_cons in H.
           destruct H as [H | [H | [H | H] ] ]; try discriminate.
           now apply elem_of_nil in H.
        -- apply (probe_or_sleep_not _ _ Hall) in H. destruct H.
        -- destruct (TIMEOUT <=? 2 * k);
             [ now apply elem_of_nil in H
             | apply list_elem_of_singleton in H; discriminate ].
      * intros (_ & Hex & _). right. left. rewrite Hex. cbn.
        now apply list_elem_of_singleton.
    + split; [ discriminate | ].
      intros [Hbad | [Hbad1 Hbad2] ]; [ congruence | destruct He; congruence ].
    + discriminate.
    + intros _. split; [ reflexivity | ].
      rewrite !elem_of_app, !elem_of_cons. split; tauto.
Qed.

End DockerScript.

(** * Further concrete runs *)

Section MorePageRuns.

Import Js.
Local Open Scope Z_scope.

Lemma send_is_guarded_witness :
  Page.blank (Client.input Page.blank_page) = true
  /\ Client.handleSend 5 Page.blank_page = (Page.blank_page, None)
  /\ exists st' req,
       Client.handleSend 5 (Client.ui (Client.run (Client.start 0) Client.sample_past))
         = (st', Some req).
Proof.
  split; [ reflexivity | ]. split.
  - apply (proj1 (send_is_guarded Page.blank_page 5)). left. reflexivity.
  - apply (proj2 (send_is_guarded
                    (Client.ui (Client.run (Client.start 0) Client.sample_past)) 5));
      reflexivity.
Defined.

Lemma posted_message_is_trimmed_witness :
  let st := Client.ui (Client.run (Client.start 0) Client.sample_past) in
  let req := {| Client.message := lit "Do you take walk-ins?";
                Client.conversation_history :=
                  [ {| Client.entry_role := Client.assistant;
                       Client.entry_content := Client.GREETING |} ] |} in
  Client.handleSend 5 st = (fst (Client.handleSend 5 st), Some req)
  /\ Client.message req <> []
  /\ trim (Client.message req) = Client.message req.
Proof.
  intros st req.
  assert (Hsend : Client.handleSend 5 st = (fst (Client.handleSend 5 st), Some req))
    by reflexivity.
  split; [ exact Hsend | ].
  destruct (posted_message_is_trimmed st 5 _ req Hsend) as (Hne & _ & _ & _ & Ht & _).
  split; [ exact Hne | exact Ht ].
Defined.

Lemma controls_follow_pending_call_witness :
  let w := Client.run (Client.start 0) (Client.sample_past ++ [Client.Send 5]) in
  Client.in_flight w <> []
  /\ Page.input_disabled (Client.ui w) = true
  /\ Page.button_disabled (Client.ui w) = true.
Proof.
  intros w.
  assert (Hp : Client.in_flight w <> []) by (vm_compute; discriminate).
  destruct (controls_follow_pending_call 0 (Client.sample_past ++ [Client.Send 5]) 7)
    as (Hinput & Hbutton & _).
  split; [ exact Hp | ]. split; [ now apply Hinput | now apply Hbutton ].
Defined.

Lemma roles_alternate_witness :
  let st := Client.ui (Client.run (Client.start 0) (Client.sample_past ++ [Client.Send 5])) in
  let m := {| Client.role := Client.user; Client.content := lit "Do you take walk-ins?";
              Client.timestamp := 5 |} in
  Client.messages st !! 1%nat = Some m
  /\ last (Client.messages st) = Some m
  /\ Client.role m = Page.expected_role 1
  /\ Client.role m = if Client.isLoading st then Client.user else Client.assistant.
Proof.
  intros st m.
  destruct (roles_alternate 0 (Client.sample_past ++ [Client.Send 5]))
    as (Hroles & _ & Hlast).
  split; [ reflexivity | ]. split; [ reflexivity | ].
  split; [ apply (Hroles 1%nat m); reflexivity | apply (Hlast m); reflexivity ].
Defined.

Lemma no_empty_message_witness :
  let m := {| Client.role := Client.assistant; Client.content := Client.GREETING;
              Client.timestamp := 0 |} in
  m ∈ Client.messages (Client.ui (Client.run (Client.start 0) Client.sample_past))
  /\ Client.content m <> [].
Proof.
  intros m.
  assert (Hin : m ∈ Client.messages
                     (Client.ui (Client.run (Client.start 0) Client.sample_past)))
    by (apply list_elem_of_lookup; exists 0%nat; reflexivity).
  split; [ exact Hin | ].
  exact (no_empty_message 0 Client.sample_past m Hin).
Defined.

Lemma posted_history_alternates_witness :
  let st := Client.ui (Client.run (Client.start 0) Client.sample_past) in
  let req := {| Client.message := lit "Do you take walk-ins?";
                Client.conversation_history :=
                  [ {| Client.entry_role := Client.assistant;
                       Client.entry_content := Client.GREETING |} ] |} in
  Client.handleSend 5 st = (fst (Client.handleSend 5 st), Some req)
  /\ Nat.odd (length (Client.conversation_history req)) = true.
Proof.
  intros st req.
  assert (Hsend : Client.handleSend 5 st = (fst (Client.handleSend 5 st), Some req))
    by reflexivity.
  split; [ exact Hsend | ].
  exact (proj1 (posted_history_alternates 0 Client.sample_past 5 _ req Hsend)).
Defined.

Lemma no_response_text_witness :
  Client.error_response (Client.timeout_error 60000) = None
  /\ Client.error_request (Client.timeout_error 60000) = true
  /\ Client.errorContent (Client.timeout_error 60000) = Client.MSG_TIMEOUT.
Proof.
  split; [ reflexivity | ]. split; [ reflexivity | ].
  apply (proj1 (no_response_text (Client.timeout_error 60000) eq_refl eq_refl)).
  left. reflexivity.
Defined.

Lemma body_text_precedence_witness :
  let body := {| Client.detail := None;
                 Client.data_message := Some Client.sample_detail |} in
  let r := {| Client.status := 503; Client.data := Some body |} in
  let error := {| Client.error_response := Some r; Client.error_request := true;
                  Client.error_code := None; Client.error_message := None |} in
  Some (Client.errorContent error) = Client.data_message body.
Proof.
  intros body r error.
  pose proof (body_text_precedence error r eq_refl) as H.
  cbn [Client.status Client.data r] in H.
  apply H; [ discriminate | discriminate | reflexivity | reflexivity ].
Defined.

Lemma unknown_status_is_named_witness :
  Client.errorContent (Client.http_error 503 None) =
    lit "Server error (503). Please try again."
  /\ (Client.errorContent (Client.http_error 503 None)
      = Client.errorContent (Client.http_error 404 None) -> 503 = 404).
Proof.
  apply (unknown_status_is_named 503 404); discriminate.
Defined.

Lemma next_history_extends_witness :
  let w := Client.run (Client.start 0) Client.sample_past in
  let outcome := Client.Fulfilled (Some {| Client.response := Some (lit "Yes.") |}) in
  let w2 := Client.step
              (Client.run (Client.step w (Client.Send 5)) Client.sample_between)
              (Client.Settle 0 9 outcome) in
  let next := Client.handleSend 12 (Client.ui (Client.run w2 Page.sample_typed)) in
  exists req2,
    snd next = Some req2
    /\ Client.conversation_history req2 =
         [ {| Client.entry_role := Client.assistant;
              Client.entry_content := Client.GREETING |};
           {| Client.entry_role := Client.user;
              Client.entry_content := lit "Do you take walk-ins?" |};
           {| Client.entry_role := Client.assistant;
              Client.entry_content := lit "Yes." |} ].
Proof.
  intros w outcome w2 next.
  destruct (snd next) as [ req2 | ] eqn:Hnext; [ | discriminate Hnext ].
  exists req2. split; [ reflexivity | ].
  apply (next_history_extends 0 Client.sample_past Client.sample_between
           Page.sample_typed 5 9 12 outcome
           (fst (Client.handleSend 5 (Client.ui w)))
           {| Client.message := lit "Do you take walk-ins?";
              Client.conversation_history :=
                [ {| Client.entry_role := Client.assistant;
                     Client.entry_content := Client.GREETING |} ] |}
           (fst next) req2);
    try reflexivity.
  subst next. destruct (Client.handleSend 12 _) as [st2 o]. cbn in Hnext. now subst o.
Defined.

End MorePageRuns.

Section ScriptRuns.

Lemma finished_run_is_bounded_witness :
  DockerInit.docker_init DockerInit.never_healthy
    = Some (DockerInit.run_on DockerInit.never_healthy)
  /\ length (List.filter DockerInit.is_curl
               (DockerInit.commands (DockerInit.run_on DockerInit.never_healthy))) <= 30
  /\ sum_list_with DockerInit.sleep_seconds
       (DockerInit.commands (DockerInit.run_on DockerInit.never_healthy)) <= 60.
Proof.
  assert (Hrun : DockerInit.docker_init DockerInit.never_healthy
                 = Some (DockerInit.run_on DockerInit.never_healthy)) by reflexivity.
  split; [ exact Hrun | ].
  exact (finished_run_is_bounded _ _ Hrun).
Defined.

Lemma database_initialised_iff_healthy_witness :
  DockerInit.docker_init DockerInit.slow_start
    = Some (DockerInit.run_on DockerInit.slow_start)
  /\ DockerInit.InitDatabase ∈ DockerInit.commands (DockerInit.run_on DockerInit.slow_start)
  /\ last (DockerInit.commands (DockerInit.run_on DockerInit.slow_start))
     = Some DockerInit.InitDatabase.
Proof.
  assert (Hrun : DockerInit.docker_init DockerInit.slow_start
                 = Some (DockerInit.run_on DockerInit.slow_start)) by reflexivity.
  destruct (database_initialised_iff_healthy _ _ Hrun) as [Hiff Hlast].
  assert (Hin : DockerInit.InitDatabase
                  ∈ DockerInit.commands (DockerInit.run_on DockerInit.slow_start)).
  { apply Hiff. split; [ reflexivity | ]. split; [ now right | ].
    exists 2. split; [ lia | reflexivity ]. }
  split; [ exact Hrun | ]. split; [ exact Hin | exact (Hlast Hin) ].
Defined.

Lemma env_file_is_never_overwritten_witness :
  DockerInit.docker_init DockerInit.never_healthy
    = Some (DockerInit.run_on DockerInit.never_healthy)
  /\ DockerInit.CopyTemplate
       ∉ DockerInit.commands (DockerInit.run_on DockerInit.never_healthy).
Proof.
  assert (Hrun : DockerInit.docker_init DockerInit.never_healthy
                 = Some (DockerInit.run_on DockerInit.never_healthy)) by reflexivity.
  split; [ exact Hrun | ].
  intros Hin.
  apply (proj1 (env_file_is_never_overwritten _ _ Hrun)) in Hin.
  destruct Hin as (_ & He & _). discriminate He.
Defined.

End ScriptRuns.
